(** * Collapsing Orthologous Nodes: equivalence classes and relabeling

    Shallow embedding of the notebook
    [needs_updating/Collapsing Orthologous Nodes.ipynb]:
    - cell 10: [orthology.to_undirected()];
    - cell 11: [nx.connected_components] over [orthology_undirected] and the
      dictionaries [index2component], [member2index], [index2mgi];
    - cell 12: the dictionary [mapping];
    - cells 15 and 19: the [Counter] of the gene namespaces;
    - cells 17 and 18: the node-data update of the corpus graph [g] and
      [nx.relabel_nodes(g, lambda n: mapping[n] if n in mapping else n,
      copy=False)].

    The library functions the notebook calls are embedded from networkx 1.x
    (the API the notebook uses: [g.node], [nodes_iter]): [connected_components]
    with [_plain_bfs], [MultiDiGraph.to_undirected], and [relabel_nodes] with
    [_relabel_inplace] on a [MultiDiGraph] (a PyBEL [BELGraph]). *)

From stdpp Require Import base list gmap strings fin_maps.

(* ------------------------------------------------------------------ *)
(** ** Data model *)

(** A PyBEL node [(function, namespace, name)]. *)
Abbreviation GeneId := (string * string * string)%type.

Definition node_function (n : GeneId) : string := n.1.1.
Definition node_namespace (n : GeneId) : string := n.1.2.
Definition node_name (n : GeneId) : string := n.2.

(** A node or edge attribute dictionary. *)
Abbreviation Attrs := (gmap string string).

(** Python's [d.update(e)]: the values of [e] win on a shared key. *)
Definition dict_update (d e : Attrs) : Attrs := e ∪ d.

(** The undirected orthology graph [orthology_undirected]: its node
    sequence (the iteration order of [G]), its edges (each edge stands for
    both directions) and the node attribute dictionaries [G.node]. *)
Record UGraph := {
  unodes : list GeneId;
  uedges : list (GeneId * GeneId);
  uattr : gmap GeneId Attrs
}.

(** [G[v]]: the neighbours of [v] in the undirected graph. *)
Definition neighbors (G : UGraph) (v : GeneId) : list GeneId :=
  foldr (fun e acc =>
           (if decide (e.1 = v) then [e.2] else [])
           ++ (if decide (e.2 = v) then [e.1] else []) ++ acc)
        [] (uedges G).

(** A well-formed networkx graph: nodes are unique, edge endpoints are
    nodes, and every node has an attribute dictionary. *)
Definition ugraph_wf (G : UGraph) : Prop :=
  NoDup (unodes G) /\
  Forall (fun e => e.1 ∈ unodes G /\ e.2 ∈ unodes G) (uedges G) /\
  Forall (fun n => is_Some (uattr G !! n)) (unodes G) /\
  map_Forall (fun n _ => n ∈ unodes G) (uattr G).

#[global] Instance ugraph_wf_dec (G : UGraph) : Decision (ugraph_wf G).
Proof. unfold ugraph_wf. apply _. Defined.

(* ------------------------------------------------------------------ *)
(** ** [nx.connected_components] (networkx 1.x)

<<
def _plain_bfs(G, source):
    seen = set()
    nextlevel = {source}
    while nextlevel:
        thislevel = nextlevel
        nextlevel = set()
        for v in thislevel:
            if v not in seen:
                yield v
                seen.add(v)
                nextlevel.update(G[v])

def connected_components(G):
    seen = set()
    for v in G:
        if v not in seen:
            c = set(_plain_bfs(G, v))
            yield c
            seen.update(c)
>>
    [seen] of [_plain_bfs] is kept as the list of yielded nodes in yield
    order. The component yielded is a Python [set], whose iteration order
    depends on the hash seed of the process: [connected_components] gives
    its members in the yield order, which is one of the possible iteration
    orders; [orth_index_ord] below takes the order in which cell 11 scans
    each component as a parameter. The [while] loop runs at most once per
    node plus once more, which is the fuel given to it. *)

(** The [for v in thislevel] loop: returns [seen] and [nextlevel]. *)
Fixpoint scan_level (G : UGraph) (thislevel seen next : list GeneId)
  : list GeneId * list GeneId :=
  match thislevel with
  | [] => (seen, next)
  | v :: rest =>
      if decide (v ∈ seen) then scan_level G rest seen next
      else scan_level G rest (seen ++ [v]) (next ++ neighbors G v)
  end.

(** The [while nextlevel] loop. *)
Fixpoint bfs_loop (G : UGraph) (fuel : nat) (seen nextlevel : list GeneId)
  : list GeneId :=
  match fuel with
  | 0 => seen
  | S fuel' =>
      match nextlevel with
      | [] => seen
      | _ :: _ =>
          let '(seen', next') := scan_level G nextlevel seen [] in
          bfs_loop G fuel' seen' next'
      end
  end.

Definition plain_bfs (G : UGraph) (source : GeneId) : list GeneId :=
  bfs_loop G (S (length (unodes G))) [] [source].

Fixpoint components_loop (G : UGraph) (vs seen : list GeneId)
  : list (list GeneId) :=
  match vs with
  | [] => []
  | v :: rest =>
      if decide (v ∈ seen) then components_loop G rest seen
      else let c := plain_bfs G v in c :: components_loop G rest (seen ++ c)
  end.

Definition connected_components (G : UGraph) : list (list GeneId) :=
  components_loop G (unodes G) [].

(* ------------------------------------------------------------------ *)
(** ** Cell 11: [index2component], [member2index], [index2mgi]

<<
for i, component in enumerate(nx.connected_components(orthology_undirected)):
    index2component[i] = component
    for function, namespace, name in component:
        member2index[function, namespace, name] = i
        if 'MGI' == namespace:
            index2mgi[i] = function, namespace, name
>> *)

Record Index := {
  index2component : gmap nat (list GeneId);
  member2index : gmap GeneId nat;
  index2mgi : gmap nat GeneId
}.

Definition empty_index : Index :=
  {| index2component := ∅; member2index := ∅; index2mgi := ∅ |}.

Fixpoint scan_component (i : nat) (component : list GeneId) (st : Index)
  : Index :=
  match component with
  | [] => st
  | n :: rest =>
      let m2i := <[n := i]> (member2index st) in
      let i2m := if decide ("MGI" = node_namespace n)
                 then <[i := n]> (index2mgi st) else index2mgi st in
      scan_component i rest
        {| index2component := index2component st;
           member2index := m2i; index2mgi := i2m |}
  end.

Fixpoint build_index (i : nat) (comps : list (list GeneId)) (st : Index)
  : Index :=
  match comps with
  | [] => st
  | c :: cs =>
      build_index (S i) cs
        (scan_component i c
           {| index2component := <[i := c]> (index2component st);
              member2index := member2index st;
              index2mgi := index2mgi st |})
  end.

Definition orth_index (G : UGraph) : Index :=
  build_index 0 (connected_components G) empty_index.

(** The same, with the members of each component scanned in the order
    [ord c]: the iteration order of the Python set, a permutation of [c]
    fixed by the hash seed. *)
Definition orth_index_ord (ord : list GeneId -> list GeneId) (G : UGraph) : Index :=
  build_index 0 (map ord (connected_components G)) empty_index.

(* ------------------------------------------------------------------ *)
(** ** Cell 12: [mapping]

<<
mapping = {}
for function, namepace, name in orthology_undirected:
    if (function, namepace, name) not in member2index:
        continue
    index = member2index[function, namepace, name]
    if index not in index2mgi:
        continue
    mapping[function, namepace, name] = index2mgi[index]
>> *)

Fixpoint mapping_loop (ix : Index) (vs : list GeneId) (mp : gmap GeneId GeneId)
  : gmap GeneId GeneId :=
  match vs with
  | [] => mp
  | n :: rest =>
      match member2index ix !! n with
      | None => mapping_loop ix rest mp
      | Some index =>
          match index2mgi ix !! index with
          | None => mapping_loop ix rest mp
          | Some r => mapping_loop ix rest (<[n := r]> mp)
          end
      end
  end.

Definition orth_mapping (G : UGraph) : gmap GeneId GeneId :=
  mapping_loop (orth_index G) (unodes G) ∅.

Definition orth_mapping_ord (ord : list GeneId -> list GeneId) (G : UGraph)
  : gmap GeneId GeneId :=
  mapping_loop (orth_index_ord ord G) (unodes G) ∅.

(** Whether the [continue] of the [member2index] guard is taken at some
    node of the loop. *)
Definition guard_skips (G : UGraph) : bool :=
  existsb (fun n => if member2index (orth_index G) !! n then false else true)
          (unodes G).

(* ------------------------------------------------------------------ *)
(** ** Building an orthology graph from an edge list

    [add_edges_from]: nodes in order of first appearance, each with the
    attribute dictionary PyBEL gives a gene node. *)

Fixpoint dedup (l : list GeneId) : list GeneId :=
  match l with
  | [] => []
  | x :: xs => x :: filter (fun y => x <> y) (dedup xs)
  end.

Definition touched (E : list (GeneId * GeneId)) : list GeneId :=
  dedup (concat (map (fun e => [e.1; e.2]) E)).

Definition bel_node_attrs (n : GeneId) : Attrs :=
  <["type" := node_function n]> (<["namespace" := node_namespace n]>
    (<["name" := node_name n]> ∅)).

Definition graph_of_edges (E : list (GeneId * GeneId)) : UGraph :=
  {| unodes := touched E; uedges := E;
     uattr := list_to_map (map (fun n => (n, bel_node_attrs n)) (touched E)) |}.

(* ------------------------------------------------------------------ *)
(** ** Sample data *)

Definition TP53_HGNC : GeneId := ("Gene", "HGNC", "TP53").
Definition Trp53_MGI : GeneId := ("Gene", "MGI", "Trp53").
Definition Tp53_RGD : GeneId := ("Gene", "RGD", "Tp53").
Definition FOO_HGNC : GeneId := ("Gene", "HGNC", "FOO").
Definition Foo_RGD : GeneId := ("Gene", "RGD", "Foo").

Definition tp53_edges : list (GeneId * GeneId) :=
  [(TP53_HGNC, Trp53_MGI); (Trp53_MGI, Tp53_RGD)].

Definition tp53_orthology : UGraph := graph_of_edges tp53_edges.

(* ------------------------------------------------------------------ *)
(** ** The corpus graph [g]: a networkx 1.x [MultiDiGraph]

    [gnode] is [G.node] (a node is in the graph iff it has an attribute
    dictionary); [gedge] maps [(u, v, key)] to the edge data.  networkx keeps
    one data dictionary per edge, shared between [succ] and [pred], so one
    map stands for both. *)

Abbreviation EdgeKey := (GeneId * GeneId * Z)%type.

Record MGraph := {
  gnode : gmap GeneId Attrs;
  gedge : gmap EdgeKey Attrs
}.

(** Boolean comparison of graphs, used to evaluate examples. *)
Definition mgraph_eqb (G1 G2 : MGraph) : bool :=
  bool_decide (gnode G1 = gnode G2) && bool_decide (gedge G1 = gedge G2).

Definition result_is (o : option MGraph) (R : MGraph) : bool :=
  match o with Some G => mgraph_eqb G R | None => false end.

(** [G.add_node(n, attr_dict=a)]: a new node gets [a], an existing one has
    its dictionary updated with [a]. *)
Definition add_node (n : GeneId) (a : Attrs) (G : MGraph) : MGraph :=
  {| gnode := match gnode G !! n with
              | Some d => <[n := dict_update d a]> (gnode G)
              | None => <[n := a]> (gnode G)
              end;
     gedge := gedge G |}.

(** [add_edge] creates a missing endpoint with an empty dictionary. *)
Definition ensure_node (n : GeneId) (G : MGraph) : MGraph :=
  match gnode G !! n with
  | Some _ => G
  | None => {| gnode := <[n := ∅]> (gnode G); gedge := gedge G |}
  end.

(** One [(u, v, key, data)] of [G.add_edges_from]: the data of an existing
    edge with the same key is updated, otherwise the edge is created. *)
Definition add_edge4 (e : EdgeKey * Attrs) (G : MGraph) : MGraph :=
  let '(k, d) := e in
  let G1 := ensure_node k.1.2 (ensure_node k.1.1 G) in
  {| gnode := gnode G1;
     gedge := <[k := dict_update (default ∅ (gedge G1 !! k)) d]> (gedge G1) |}.

Definition add_edges_from (es : list (EdgeKey * Attrs)) (G : MGraph) : MGraph :=
  fold_left (fun acc e => add_edge4 e acc) es G.

(** [G.remove_node(n)]: the node and every edge incident to it. *)
Definition remove_node (n : GeneId) (G : MGraph) : MGraph :=
  {| gnode := delete n (gnode G);
     gedge := filter (fun ke => ke.1.1.1 <> n /\ ke.1.1.2 <> n) (gedge G) |}.

(** The edge list of [G.edges(old, data=True, keys=True)] and
    [G.in_edges(old, ...)], in the order of [map_to_list]. *)
Definition out_edges (old : GeneId) (G : MGraph) : list (EdgeKey * Attrs) :=
  map_to_list (filter (fun ke => ke.1.1.1 = old) (gedge G)).

Definition in_edges (old : GeneId) (G : MGraph) : list (EdgeKey * Attrs) :=
  map_to_list (filter (fun ke => ke.1.1.2 = old) (gedge G)).

(** [new_edges] of [_relabel_inplace] for a multigraph, directed:
<<
new_edges = [(new, new if old == target else target, key, data)
             for (_, target, key, data) in G.edges(old, data=True, keys=True)]
new_edges += [(new if old == source else source, new, key, data)
              for (source, _, key, data) in G.in_edges(old, data=True, keys=True)]
>> *)
Definition repoint_out (old new : GeneId) (e : EdgeKey * Attrs) : EdgeKey * Attrs :=
  let '(k, d) := e in
  ((new, if decide (old = k.1.2) then new else k.1.2, k.2), d).

Definition repoint_in (old new : GeneId) (e : EdgeKey * Attrs) : EdgeKey * Attrs :=
  let '(k, d) := e in
  ((if decide (old = k.1.1) then new else k.1.1, new, k.2), d).

Definition new_edges (old new : GeneId) (G : MGraph) : list (EdgeKey * Attrs) :=
  map (repoint_out old new) (out_edges old G)
  ++ map (repoint_in old new) (in_edges old G).

(** One iteration of the loop of [_relabel_inplace]; [None] is the
    [KeyError] raised when [old] is not in the graph.
<<
for old in nodes:
    try: new = mapping[old]
    except KeyError: continue
    if new == old: continue
    try: G.add_node(new, attr_dict=G.node[old])
    except KeyError: raise KeyError("Node %s is not in the graph"%old)
    new_edges = ...
    G.remove_node(old)
    G.add_edges_from(new_edges)
>> *)
Definition relabel_step (m : gmap GeneId GeneId) (old : GeneId) (G : MGraph)
  : option MGraph :=
  match m !! old with
  | None => Some G
  | Some new =>
      if decide (new = old) then Some G
      else match gnode G !! old with
           | None => None
           | Some a =>
               let G1 := add_node new a G in
               Some (add_edges_from (new_edges old new G1) (remove_node old G1))
           end
  end.

(** [_relabel_inplace(G, m)], run over the processing sequence [nodes]:
    networkx takes a reverse topological order of the graph of [m] when the
    old and new label sets overlap, and the key set of [m] otherwise; the
    sequence is an input of the model. *)
Definition relabel_inplace (m : gmap GeneId GeneId) (nodes : list GeneId)
  (G : MGraph) : option MGraph :=
  fold_left (fun acc old => acc ≫= relabel_step m old) nodes (Some G).

(** [relabel_nodes(G, f, copy=False)] with a function [f]: the dictionary
    [m = dict((n, f(n)) for n in G)] is built first. *)
Definition relabel_nodes (f : GeneId -> GeneId) (nodes : list GeneId)
  (G : MGraph) : option MGraph :=
  relabel_inplace (map_imap (fun n _ => Some (f n)) (gnode G)) nodes G.

(** [lambda n: mapping[n] if n in mapping else n] *)
Definition relabel_fun (mp : gmap GeneId GeneId) (n : GeneId) : GeneId :=
  match mp !! n with Some c => c | None => n end.

(* ------------------------------------------------------------------ *)
(** ** Cell 17: merging the orthology node data

<<
for name, data in g.nodes_iter(data=True):
    if data['type'] in ('Gene','RNA','Protein') and name in mapping:
        g.node[name].update(orthology_undirected.node[mapping[name]])
>>
    The new dictionary of one node; [None] is a [KeyError] ([data['type']]
    or [orthology_undirected.node[...]]). *)

Definition allowed_types : list string := ["Gene"; "RNA"; "Protein"].

Definition update_node_data (mp : gmap GeneId GeneId) (O : UGraph)
  (name : GeneId) (data : Attrs) : option Attrs :=
  match data !! "type" with
  | None => None
  | Some ty =>
      if decide (ty ∈ allowed_types) then
        match mp !! name with
        | None => Some data
        | Some c =>
            match uattr O !! c with
            | None => None
            | Some oa => Some (dict_update data oa)
            end
        end
      else Some data
  end.

(** The loop updates each dictionary in place and changes neither the node
    set nor the edges; it fails as a whole when one node raises. *)
Definition node_data_step (mp : gmap GeneId GeneId) (O : UGraph) (G : MGraph)
  : option MGraph :=
  if decide (map_Forall (fun n d => is_Some (update_node_data mp O n d)) (gnode G))
  then Some {| gnode := map_imap (update_node_data mp O) (gnode G);
               gedge := gedge G |}
  else None.

(** Cells 12, 17 and 18 in sequence: the relabeled graph [g_relabeled]. *)
Definition apply_mapping (O : UGraph) (G : MGraph) (nodes : list GeneId)
  : option MGraph :=
  let mp := orth_mapping O in
  G' ← node_data_step mp O G;
  relabel_nodes (relabel_fun mp) nodes G'.

(* ------------------------------------------------------------------ *)
(** ** Cell 10: [orthology.to_undirected()] (networkx 1.x [MultiDiGraph])

<<
H = MultiGraph()
H.add_nodes_from(self)
H.add_edges_from((u, v, key, deepcopy(data))
                 for u, nbrs in self.adjacency_iter()
                 for v, keydict in nbrs.items()
                 for key, data in keydict.items())
H.node = deepcopy(self.node)
>>
    The node sequence is the node order of [G] (the order of [map_to_list]
    stands for the dict order); each directed edge [(u, v, key)] gives an
    undirected edge [u - v]; the node dictionaries are copied. *)

Definition to_undirected (G : MGraph) : UGraph :=
  {| unodes := (map_to_list (gnode G)).*1;
     uedges := map (fun ke => (ke.1.1.1, ke.1.1.2)) (map_to_list (gedge G));
     uattr := gnode G |}.

(* ------------------------------------------------------------------ *)
(** ** Cells 15 and 19: the namespace counts of the genes

<<
before_counter = Counter(node[1] for node in g.nodes_iter()
                         if g.node[node]['type'] == 'Gene')
after_counter = Counter(node[1] for node in g_relabeled.nodes_iter()
                        if g_relabeled.node[node]['type'] == 'Gene')
>>
    [node[1]] is the namespace of the node tuple; [None] is the [KeyError]
    of a node without ["type"]. *)

(** [c[k] += 1] on a [Counter]. *)
Definition counter_add (c : gmap string nat) (k : string) : gmap string nat :=
  <[k := S (default 0 (c !! k))]> c.

(** One node of the generator. *)
Definition count_gene (acc : option (gmap string nat)) (nd : GeneId * Attrs)
  : option (gmap string nat) :=
  c ← acc;
  match nd.2 !! "type" with
  | None => None
  | Some ty => Some (if decide (ty = "Gene") then counter_add c (node_namespace nd.1) else c)
  end.

Definition gene_namespace_counter (G : MGraph) : option (gmap string nat) :=
  fold_left count_gene (map_to_list (gnode G)) (Some ∅).

(* ------------------------------------------------------------------ *)
(** ** Sample corpus graphs *)

Definition MDM2_HGNC : GeneId := ("Protein", "HGNC", "MDM2").

Definition type_attrs (ty : string) : Attrs := {["type" := ty]}.

Definition rel_attrs (r : string) : Attrs := {["relation" := r]}.

(** [TP53] (a gene) increases [MDM2] (a protein). *)
Definition corpus1 : MGraph :=
  {| gnode := {[TP53_HGNC := type_attrs "Gene"; MDM2_HGNC := type_attrs "Protein"]};
     gedge := {[(TP53_HGNC, MDM2_HGNC, 0%Z) := rel_attrs "increases"]} |}.

(** A miRNA orthology pair and a corpus where the human miRNA occurs. *)
Definition MIR21_HGNC : GeneId := ("miRNA", "HGNC", "MIR21").
Definition Mir21_MGI : GeneId := ("miRNA", "MGI", "Mir21").

Definition mir21_orthology : UGraph := graph_of_edges [(MIR21_HGNC, Mir21_MGI)].

Definition corpus2 : MGraph :=
  {| gnode := {[MIR21_HGNC := type_attrs "miRNA"]}; gedge := ∅ |}.

(** Human and rat [TP53] both act on [MDM2] under the same edge key. *)
Definition corpus3 : MGraph :=
  {| gnode := {[TP53_HGNC := type_attrs "Gene"; Tp53_RGD := type_attrs "Gene";
                MDM2_HGNC := type_attrs "Protein"]};
     gedge := {[(TP53_HGNC, MDM2_HGNC, 0%Z) := rel_attrs "increases";
                (Tp53_RGD, MDM2_HGNC, 0%Z) := rel_attrs "decreases"]} |}.

(** As [corpus3], the human edge also carrying a ["citation"]. *)
Definition cited_attrs (r cit : string) : Attrs := <["citation" := cit]> (rel_attrs r).

Definition corpus4 : MGraph :=
  {| gnode := {[TP53_HGNC := type_attrs "Gene"; Tp53_RGD := type_attrs "Gene";
                MDM2_HGNC := type_attrs "Protein"]};
     gedge := {[(TP53_HGNC, MDM2_HGNC, 0%Z) := cited_attrs "increases" "X";
                (Tp53_RGD, MDM2_HGNC, 0%Z) := rel_attrs "decreases"]} |}.

Definition foo_orthology : UGraph := graph_of_edges [(FOO_HGNC, Foo_RGD)].

(** A directed BEL orthology graph for [TP53], as [orthology] holds it. *)
Definition orth_rel : Attrs := rel_attrs "orthologous".

Definition tp53_orthology_bel : MGraph :=
  {| gnode := {[TP53_HGNC := bel_node_attrs TP53_HGNC; Trp53_MGI := bel_node_attrs Trp53_MGI;
                Tp53_RGD := bel_node_attrs Tp53_RGD]};
     gedge := {[(TP53_HGNC, Trp53_MGI, 0%Z) := orth_rel; (Tp53_RGD, Trp53_MGI, 0%Z) := orth_rel]} |}.

(** A corpus whose node has no ["type"]. *)
Definition corpus_untyped : MGraph :=
  {| gnode := {[MDM2_HGNC := ∅]}; gedge := ∅ |}.

(* ------------------------------------------------------------------ *)
(** ** Auxiliary definitions of the proofs *)

(** Adjacency and reachability in the undirected orthology graph. *)
Definition adjacent (G : UGraph) (a b : GeneId) : Prop := b ∈ neighbors G a.
Definition reach (G : UGraph) : relation GeneId := rtc (adjacent G).

(** A node list closed under [neighbors]. *)
Definition nb_closed (G : UGraph) (S : list GeneId) : Prop :=
  forall x y, x ∈ S -> y ∈ neighbors G x -> y ∈ S.

Definition is_mgi (n : GeneId) : Prop := "MGI" = node_namespace n.

(** The member recorded in [index2mgi] for a component: the last member of
    namespace [MGI] in the scan order. *)
Definition last_mgi (c : list GeneId) : option GeneId :=
  last (filter is_mgi c).

(** A second mouse gene, used for a component with two MGI members. *)
Definition Trp53ps_MGI : GeneId := ("Gene", "MGI", "Trp53-ps").

Definition two_mgi_orthology : UGraph :=
  graph_of_edges [(TP53_HGNC, Trp53_MGI); (TP53_HGNC, Trp53ps_MGI)].

(** A well-formed multigraph: both endpoints of every edge are nodes. *)
Definition mgraph_wf (G : MGraph) : Prop :=
  map_Forall (fun k _ => is_Some (gnode G !! k.1.1) /\ is_Some (gnode G !! k.1.2)) (gedge G).

#[global] Instance mgraph_wf_dec (G : MGraph) : Decision (mgraph_wf G).
Proof. unfold mgraph_wf. apply _. Defined.

(** The renaming done by one iteration of [_relabel_inplace]. *)
Definition ren (old new : GeneId) (z : GeneId) : GeneId :=
  if decide (z = old) then new else z.

(** The graph [G] is [G0] relabeled by [g]: nodes and edge keys are the
    images under [g], a node's attribute keys are those of its preimages, and
    a node that is its own sole preimage is unchanged. *)
Definition relabel_inv (G0 : MGraph) (g : GeneId -> GeneId) (G : MGraph) : Prop :=
  mgraph_wf G /\
  (forall z, is_Some (gnode G !! z) <-> exists u, is_Some (gnode G0 !! u) /\ g u = z) /\
  (forall z w k, is_Some (gedge G !! (z, w, k)) <->
     exists u v, is_Some (gedge G0 !! (u, v, k)) /\ g u = z /\ g v = w) /\
  (forall z x, (exists d, gnode G !! z = Some d /\ is_Some (d !! x)) <->
     exists u d0, gnode G0 !! u = Some d0 /\ g u = z /\ is_Some (d0 !! x)) /\
  (forall z, is_Some (gnode G0 !! z) -> g z = z ->
     (forall u, is_Some (gnode G0 !! u) -> g u = z -> u = z) ->
     gnode G !! z = gnode G0 !! z).

(** The values carried by the relabeled graph [G]: every attribute value
    of a node or an edge is the value of that attribute at one of its
    preimages in [G0]; the attribute keys of an edge are those of its
    preimages; a node with a single preimage has that preimage's
    dictionary. *)
Definition relabel_vals (G0 : MGraph) (g : GeneId -> GeneId) (G : MGraph) : Prop :=
  (forall z d x v, gnode G !! z = Some d -> d !! x = Some v ->
     exists u d0, gnode G0 !! u = Some d0 /\ g u = z /\ d0 !! x = Some v) /\
  (forall z u, is_Some (gnode G0 !! u) -> g u = z ->
     (forall u', is_Some (gnode G0 !! u') -> g u' = z -> u' = u) ->
     gnode G !! z = gnode G0 !! u) /\
  (forall z w k e x v, gedge G !! (z, w, k) = Some e -> e !! x = Some v ->
     exists u u' e0, gedge G0 !! (u, u', k) = Some e0 /\ g u = z /\ g u' = w /\
                     e0 !! x = Some v) /\
  (forall z w k x, (exists e, gedge G !! (z, w, k) = Some e /\ is_Some (e !! x)) <->
     exists u u' e0, gedge G0 !! (u, u', k) = Some e0 /\ g u = z /\ g u' = w /\
                     is_Some (e0 !! x)).


(** The relabeling after the nodes of [P] have been processed. *)
Definition relabeled_by (f : GeneId -> GeneId) (P : list GeneId) (u : GeneId) : GeneId :=
  if decide (u ∈ P) then f u else u.

(** Every node of a PyBEL graph has a ["type"] (its BEL function). *)
Definition bel_typed (T : MGraph) : Prop :=
  map_Forall (fun _ d => is_Some (d !! "type")) (gnode T).

#[global] Instance bel_typed_dec (T : MGraph) : Decision (bel_typed T).
Proof. unfold bel_typed. apply _. Defined.

(** The corpus graph after the loop of cell 17. *)
Definition merged_data (O : UGraph) (T : MGraph) : MGraph :=
  {| gnode := map_imap (update_node_data (orth_mapping O) O) (gnode T);
     gedge := gedge T |}.

(** The number of nodes of type ["Gene"] in the namespace [ns]. *)
Definition gene_count (G : MGraph) (ns : string) : nat :=
  length (filter (fun nd : GeneId * Attrs =>
                    nd.2 !! "type" = Some "Gene" /\ node_namespace nd.1 = ns)
                 (map_to_list (gnode G))).

(** Decides a closed decidable proposition by evaluation. *)
Ltac decide_by_eval := apply (bool_decide_eq_true_1 _); vm_compute; reflexivity.

(* ================================================================== *)
(** * Proofs *)

Example tp53_components :
  connected_components tp53_orthology = [[TP53_HGNC; Trp53_MGI; Tp53_RGD]].
Proof. reflexivity. Qed.

Example tp53_mapping :
  orth_mapping tp53_orthology =
  {[TP53_HGNC := Trp53_MGI; Trp53_MGI := Trp53_MGI; Tp53_RGD := Trp53_MGI]}.
Proof. apply (bool_decide_eq_true_1 _). vm_compute. reflexivity. Qed.

Lemma result_is_sound (o : option MGraph) (R : MGraph) :
  result_is o R = true -> o = Some R.
Proof.
  destruct o as [[n e]|]; simpl; [|discriminate].
  destruct R as [nR eR]. unfold mgraph_eqb; simpl. intros H.
  apply andb_true_iff in H as [H1 H2].
  apply bool_decide_eq_true_1 in H1, H2. subst. reflexivity.
Qed.

Example corpus1_relabeled :
  apply_mapping tp53_orthology corpus1 [Trp53_MGI; MDM2_HGNC; TP53_HGNC]
  = Some {| gnode := {[Trp53_MGI := bel_node_attrs Trp53_MGI;
                       MDM2_HGNC := type_attrs "Protein"]};
            gedge := {[(Trp53_MGI, MDM2_HGNC, 0%Z) := rel_attrs "increases"]} |}.
Proof. apply result_is_sound. vm_compute. reflexivity. Qed.

Lemma elem_of_neighbors (G : UGraph) (v w : GeneId) :
  w ∈ neighbors G v <-> (v, w) ∈ uedges G \/ (w, v) ∈ uedges G.
Proof.
  unfold neighbors. induction (uedges G) as [|[a b] es IH]; simpl.
  - split; [intros H; inversion H | intros [H|H]; inversion H].
  - rewrite !elem_of_app, IH, !elem_of_cons, !pair_equal_spec.
    repeat case_decide; subst; rewrite ?list_elem_of_singleton, ?elem_of_nil; naive_solver.
Qed.

Lemma app_snoc_cons (l r : list GeneId) (x : GeneId) : (l ++ [x]) ++ r = l ++ x :: r.
Proof. induction l as [|y l IH]; simpl; [reflexivity | by rewrite IH]. Qed.

Lemma scan_level_spec (G : UGraph) (th seen next : list GeneId) :
  let '(seen', next') := scan_level G th seen next in
  exists added,
    seen' = seen ++ added /\
    (forall x, x ∈ added -> x ∈ th /\ x ∉ seen) /\
    (NoDup seen -> NoDup seen') /\
    (forall x, x ∈ th -> x ∈ seen') /\
    (forall y, y ∈ next' <-> y ∈ next \/ exists x, x ∈ added /\ y ∈ neighbors G x) /\
    (added = [] -> next' = next).
Proof.
  revert seen next. induction th as [|v th IH]; intros seen next; simpl.
  - exists []. rewrite app_nil_r. split; [done|].
    split; [intros x Hx; inversion Hx|]. split; [done|]. split; [intros x Hx; inversion Hx|].
    split; [|done]. intros y. split; [tauto|]. intros [H|(x & Hx & _)]; [done|inversion Hx].
  - case_decide as Hv.
    + specialize (IH seen next). destruct (scan_level G th seen next) as [s' n'].
      destruct IH as (a & -> & Ha & Hnd & Hin & Hn & Hnil).
      exists a. split; [done|].
      split; [intros x Hx; destruct (Ha x Hx); split; [apply elem_of_cons; by right|done]|].
      split; [done|].
      split; [|done]. intros x. rewrite elem_of_cons. intros [->|Hx].
      * apply elem_of_app. by left.
      * by apply Hin.
    + specialize (IH (seen ++ [v]) (next ++ neighbors G v)).
      destruct (scan_level G th (seen ++ [v]) (next ++ neighbors G v)) as [s' n'].
      destruct IH as (a & -> & Ha & Hnd & Hin & Hn & _).
      exists (v :: a). rewrite app_snoc_cons. split; [done|].
      split.
      { intros x. rewrite elem_of_cons. intros [->|Hx]; [split; [apply elem_of_cons; by left|done]|].
        destruct (Ha x Hx) as [H1 H2]. split; [apply elem_of_cons; by right|].
        intros H3. apply H2, elem_of_app. by left. }
      split.
      { intros Hs. rewrite <- app_snoc_cons. apply Hnd. apply NoDup_app.
        split; [done|]. split; [|constructor; [apply not_elem_of_nil|constructor]].
        intros x Hx. rewrite list_elem_of_singleton. intros ->. contradiction. }
      split.
      { intros x. rewrite elem_of_cons. intros [->|Hx].
        - apply elem_of_app. right. apply elem_of_cons. by left.
        - rewrite <- app_snoc_cons. by apply Hin. }
      split; [|discriminate].
      intros y. rewrite Hn, elem_of_app. split.
      * intros [[H|H]|(x & Hx & Hy)]; [left; done | right; exists v; split; [apply elem_of_cons; by left|done] |].
        right. exists x. split; [apply elem_of_cons; by right|done].
      * intros [H|(x & Hx & Hy)]; [left; left; done|].
        apply elem_of_cons in Hx as [->|Hx]; [left; right; done|].
        right. exists x. done.
Qed.

Lemma neighbors_nodes (G : UGraph) (v w : GeneId) :
  ugraph_wf G -> w ∈ neighbors G v -> w ∈ unodes G.
Proof.
  intros (_ & Hedge & _). rewrite Forall_forall in Hedge. rewrite elem_of_neighbors.
  intros [H|H]; apply Hedge in H; simpl in H; tauto.
Qed.

Lemma nodup_length_le (l k : list GeneId) :
  NoDup l -> (forall x, x ∈ l -> x ∈ k) -> length l <= length k.
Proof. intros Hl Hk. apply submseteq_length. by apply NoDup_submseteq. Qed.

Lemma bfs_loop_spec (G : UGraph) (src : GeneId) (fuel : nat) (seen next : list GeneId) :
  ugraph_wf G ->
  (forall x, x ∈ seen -> x ∈ unodes G) ->
  (forall x, x ∈ next -> x ∈ unodes G) ->
  NoDup seen ->
  (forall x, x ∈ seen ++ next -> reach G src x) ->
  (forall x y, x ∈ seen -> y ∈ neighbors G x -> y ∈ seen ++ next) ->
  (next = [] \/ length (unodes G) < fuel + length seen) ->
  let R := bfs_loop G fuel seen next in
  (forall x, x ∈ seen ++ next -> x ∈ R) /\
  (forall x, x ∈ R -> reach G src x) /\
  nb_closed G R /\
  (forall x, x ∈ R -> x ∈ unodes G) /\
  NoDup R.
Proof.
  intros HG. revert seen next.
  induction fuel as [|fuel IH]; intros seen next Hs Hn Hnd Hr Hc Hf; simpl.
  - assert (next = []) as ->.
    { destruct Hf as [Hf|Hf]; [done|].
      pose proof (nodup_length_le seen (unodes G) Hnd Hs). lia. }
    rewrite app_nil_r in *. split; [done|]. split; [done|].
    split; [intros x y Hx Hy; exact (Hc x y Hx Hy)|]. done.
  - destruct next as [|v rest].
    + rewrite app_nil_r in *. split; [done|]. split; [done|].
      split; [intros x y Hx Hy; exact (Hc x y Hx Hy)|]. done.
    + pose proof (scan_level_spec G (v :: rest) seen []) as Hsp.
      destruct (scan_level G (v :: rest) seen []) as [s' n'].
      destruct Hsp as (a & -> & Ha & Hnd' & Hin & Hn' & Hnil).
      assert (Hreach_th : forall x, x ∈ v :: rest -> reach G src x).
      { intros x Hx. apply Hr, elem_of_app. by right. }
      destruct (IH (seen ++ a) n') as (H1 & H2 & H3 & H4 & H5).
      * intros x. rewrite elem_of_app. intros [Hx|Hx]; [by apply Hs|].
        apply Hn. by apply Ha.
      * intros y Hy. apply Hn' in Hy as [Hy|(x & Hx & Hy)]; [inversion Hy|].
        by apply (neighbors_nodes G x).
      * by apply Hnd'.
      * intros x. rewrite !elem_of_app. intros [[Hx|Hx]|Hx].
        -- apply Hr, elem_of_app. by left.
        -- apply Hreach_th. by apply Ha.
        -- apply Hn' in Hx as [Hx|(x0 & Hx0 & Hy)]; [inversion Hx|].
           eapply rtc_r; [apply Hreach_th; apply (Ha x0 Hx0) | exact Hy].
      * intros x y. rewrite !elem_of_app. intros [Hx|Hx] Hy.
        -- destruct (proj1 (elem_of_app _ _ _) (Hc x y Hx Hy)) as [Hy'|Hy'].
           ++ left. by left.
           ++ left. apply elem_of_app. by apply Hin.
        -- right. apply Hn'. right. by exists x.
      * destruct a as [|a0 a'].
        -- left. by apply Hnil.
        -- right. rewrite length_app. simpl.
           destruct Hf as [Hf|Hf]; [discriminate|lia].
      * split; [|split; [done|split; [done|split; done]]].
        intros x. rewrite elem_of_app. intros [Hx|Hx].
        -- apply H1. apply elem_of_app. left. apply elem_of_app. by left.
        -- apply H1. apply elem_of_app. left. by apply Hin.
Qed.

Lemma plain_bfs_spec (G : UGraph) (src : GeneId) :
  ugraph_wf G -> src ∈ unodes G ->
  let R := plain_bfs G src in
  src ∈ R /\
  (forall x, x ∈ R -> reach G src x) /\
  nb_closed G R /\
  (forall x, x ∈ R -> x ∈ unodes G) /\
  NoDup R.
Proof.
  intros HG Hsrc. unfold plain_bfs.
  destruct (bfs_loop_spec G src (S (length (unodes G))) [] [src]) as (H1 & H2 & H3 & H4 & H5).
  - exact HG.
  - intros x Hx. inversion Hx.
  - intros x Hx. apply list_elem_of_singleton in Hx. by subst.
  - constructor.
  - intros x Hx. simpl in Hx. apply list_elem_of_singleton in Hx. subst. reflexivity.
  - intros x y Hx. inversion Hx.
  - right. simpl. lia.
  - split; [apply H1; simpl; by apply list_elem_of_singleton|]. done.
Qed.

Lemma reach_sym (G : UGraph) (a b : GeneId) : reach G a b -> reach G b a.
Proof.
  intros H. induction H as [x|x y z Hxy Hyz IH]; [reflexivity|].
  eapply rtc_r; [exact IH|]. unfold adjacent in *. rewrite elem_of_neighbors in *. tauto.
Qed.

Lemma nb_closed_reach (G : UGraph) (S : list GeneId) (x y : GeneId) :
  nb_closed G S -> x ∈ S -> reach G x y -> y ∈ S.
Proof.
  intros Hc Hx Hr. induction Hr as [x|x z y Hxz Hzy IH]; [exact Hx|].
  apply IH. exact (Hc x z Hx Hxz).
Qed.

Lemma components_loop_spec (G : UGraph) (vs seen : list GeneId) :
  ugraph_wf G -> (forall x, x ∈ vs -> x ∈ unodes G) -> nb_closed G seen ->
  let C := components_loop G vs seen in
  (forall c, c ∈ C -> exists v, v ∈ vs /\ (v ∉ seen) /\ c = plain_bfs G v) /\
  (forall x, x ∈ vs -> x ∈ seen \/ exists c, c ∈ C /\ x ∈ c) /\
  (forall c x, c ∈ C -> x ∈ c -> x ∉ seen) /\
  (forall i j ci cj x, C !! i = Some ci -> C !! j = Some cj ->
                       x ∈ ci -> x ∈ cj -> i = j).
Proof.
  intros HG. revert seen. induction vs as [|v vs IH]; intros seen Hvs Hseen; simpl.
  - split; [intros c Hc; inversion Hc|]. split; [intros x Hx; inversion Hx|].
    split; [intros c x Hc; inversion Hc|]. intros i j ci cj x Hi. discriminate.
  - case_decide as Hv.
    + destruct (IH seen) as (H1 & H2 & H3 & H4); [intros x Hx; apply Hvs, elem_of_cons; by right|done|].
      split; [intros c Hc; destruct (H1 c Hc) as (w & Hw & ?); exists w; split; [apply elem_of_cons; by right|done]|].
      split; [|done]. intros x. rewrite elem_of_cons. intros [->|Hx]; [by left|by apply H2].
    + assert (Hv' : v ∈ unodes G) by (apply Hvs, elem_of_cons; by left).
      destruct (plain_bfs_spec G v HG Hv') as (Hc1 & Hc2 & Hc3 & Hc4 & _).
      set (c := plain_bfs G v) in *.
      assert (Hdisj : forall x, x ∈ c -> x ∉ seen).
      { intros x Hx Hxs. apply Hv. apply (nb_closed_reach G seen x v Hseen Hxs).
        apply reach_sym. by apply Hc2. }
      destruct (IH (seen ++ c)) as (H1 & H2 & H3 & H4).
      { intros x Hx. apply Hvs, elem_of_cons. by right. }
      { intros x y Hx Hy. apply elem_of_app in Hx as [Hx|Hx]; apply elem_of_app.
        - left. exact (Hseen x y Hx Hy).
        - right. exact (Hc3 x y Hx Hy). }
      split.
      { intros c' Hc'. apply elem_of_cons in Hc' as [->|Hc'].
        - exists v. split; [apply elem_of_cons; by left|]. done.
        - destruct (H1 c' Hc') as (w & Hw & Hws & ->). exists w.
          split; [apply elem_of_cons; by right|]. split; [|done].
          intros Hw'. apply Hws, elem_of_app. by left. }
      split.
      { intros x. rewrite elem_of_cons. intros [->|Hx].
        - right. exists c. split; [apply elem_of_cons; by left|done].
        - destruct (H2 x Hx) as [Hx'|(c' & Hc' & Hxc')].
          + apply elem_of_app in Hx' as [Hx'|Hx']; [by left|].
            right. exists c. split; [apply elem_of_cons; by left|done].
          + right. exists c'. split; [apply elem_of_cons; by right|done]. }
      split.
      { intros c' x Hc' Hx. apply elem_of_cons in Hc' as [->|Hc'].
        - by apply Hdisj.
        - intros Hxs. apply (H3 c' x Hc' Hx), elem_of_app. by left. }
      intros [|i] [|j] ci cj x Hi Hj Hxi Hxj; simpl in Hi, Hj; try done.
      * injection Hi as <-. apply list_elem_of_lookup_2 in Hj.
        exfalso. apply (H3 cj x Hj Hxj), elem_of_app. by right.
      * injection Hj as <-. apply list_elem_of_lookup_2 in Hi.
        exfalso. apply (H3 ci x Hi Hxi), elem_of_app. by right.
      * f_equal. exact (H4 i j ci cj x Hi Hj Hxi Hxj).
Qed.

Lemma connected_components_spec (G : UGraph) :
  ugraph_wf G ->
  let C := connected_components G in
  (forall x, x ∈ unodes G -> exists c, c ∈ C /\ x ∈ c) /\
  (forall c x, c ∈ C -> x ∈ c -> x ∈ unodes G) /\
  (forall c, c ∈ C -> exists v, v ∈ c /\ nb_closed G c /\
                      forall x, x ∈ c -> reach G v x) /\
  (forall i j ci cj x, C !! i = Some ci -> C !! j = Some cj ->
                       x ∈ ci -> x ∈ cj -> i = j).
Proof.
  intros HG. unfold connected_components.
  destruct (components_loop_spec G (unodes G) [] HG) as (H1 & H2 & H3 & H4).
  - done.
  - intros x y Hx. inversion Hx.
  - split; [intros x Hx; destruct (H2 x Hx) as [Hx'|?]; [inversion Hx'|done]|].
    split.
    { intros c x Hc Hx. destruct (H1 c Hc) as (v & Hv & _ & ->).
      destruct (plain_bfs_spec G v HG Hv) as (_ & _ & _ & Hs & _). by apply Hs. }
    split; [|done].
    intros c Hc. destruct (H1 c Hc) as (v & Hv & _ & ->).
    destruct (plain_bfs_spec G v HG Hv) as (Ha & Hb & Hc' & _ & _).
    exists v. done.
Qed.

Lemma last_mgi_cons (x : GeneId) (l : list GeneId) :
  last_mgi (x :: l) =
  match last_mgi l with
  | Some y => Some y
  | None => if decide (is_mgi x) then Some x else None
  end.
Proof.
  unfold last_mgi. rewrite filter_cons. case_decide as Hx.
  - rewrite last_cons. reflexivity.
  - destruct (last (filter is_mgi l)); reflexivity.
Qed.

Lemma last_mgi_None (c : list GeneId) :
  last_mgi c = None <-> forall x, x ∈ c -> ~ is_mgi x.
Proof.
  induction c as [|x l IH].
  - split; [intros _ x Hx; inversion Hx|done].
  - rewrite last_mgi_cons. split.
    + destruct (last_mgi l) eqn:E; [discriminate|].
      case_decide as Hx; [discriminate|]. intros _ y Hy.
      apply elem_of_cons in Hy as [->|Hy]; [done|]. by apply IH.
    + intros H. rewrite (proj2 IH); [|intros y Hy; apply H, elem_of_cons; by right].
      case_decide as Hx; [|done]. exfalso. apply (H x); [apply elem_of_cons; by left|done].
Qed.

Lemma last_mgi_Some (c : list GeneId) (r : GeneId) :
  last_mgi c = Some r <->
  exists pre post, c = pre ++ r :: post /\ is_mgi r /\
                   forall x, x ∈ post -> ~ is_mgi x.
Proof.
  split.
  - induction c as [|x l IH]; [discriminate|]. rewrite last_mgi_cons.
    destruct (last_mgi l) as [y|] eqn:E.
    + intros [= ->]. destruct IH as (pre & post & -> & ?); [done|].
      exists (x :: pre), post. done.
    + case_decide as Hx; [|discriminate]. intros [= ->].
      exists [], l. split; [done|]. split; [done|]. by apply last_mgi_None.
  - intros (pre & post & -> & Hr & Hpost). induction pre as [|x pre IH]; simpl.
    + rewrite last_mgi_cons, (proj2 (last_mgi_None post) Hpost).
      case_decide; [done|contradiction].
    + rewrite last_mgi_cons, IH. reflexivity.
Qed.

Lemma last_mgi_elem (c : list GeneId) (r : GeneId) :
  last_mgi c = Some r -> r ∈ c /\ node_namespace r = "MGI".
Proof.
  intros H. apply last_mgi_Some in H as (pre & post & -> & Hr & _).
  split; [apply elem_of_app; right; apply elem_of_cons; by left|done].
Qed.

(** ** The dictionaries of cell 11 *)

Lemma scan_component_m2i (i : nat) (c : list GeneId) (st : Index) (n : GeneId) :
  member2index (scan_component i c st) !! n =
  if decide (n ∈ c) then Some i else member2index st !! n.
Proof.
  revert st. induction c as [|x l IH]; intros st; cbn [scan_component].
  - case_decide as H; [inversion H|done].
  - rewrite IH. cbn [member2index]. rewrite lookup_insert.
    destruct (decide (n ∈ l)) as [Hl|Hl];
      destruct (decide (n ∈ x :: l)) as [Hxl|Hxl];
      destruct (decide (x = n)) as [Hxn|Hxn]; try reflexivity; exfalso.
    all: try (apply Hxl, elem_of_cons; by right).
    all: try (subst; apply Hxl, elem_of_cons; by left).
    apply elem_of_cons in Hxl as [->|?]; [congruence|contradiction].
Qed.

Lemma scan_component_i2m (i : nat) (c : list GeneId) (st : Index) (j : nat) :
  index2mgi (scan_component i c st) !! j =
  if decide (j = i)
  then match last_mgi c with Some r => Some r | None => index2mgi st !! i end
  else index2mgi st !! j.
Proof.
  revert st. induction c as [|x l IH]; intros st; cbn [scan_component].
  - case_decide; subst; reflexivity.
  - rewrite IH. cbn [index2mgi]. rewrite last_mgi_cons.
    case_decide as Hj; [subst j|].
    + destruct (last_mgi l); [reflexivity|].
      unfold is_mgi. case_decide as Hx.
      * apply lookup_insert_eq.
      * reflexivity.
    + case_decide; [by rewrite lookup_insert_ne|reflexivity].
Qed.

Lemma build_index_i2m (k : nat) (comps : list (list GeneId)) (st : Index) (j : nat) :
  (forall j', k <= j' -> index2mgi st !! j' = None) ->
  index2mgi (build_index k comps st) !! j =
  if decide (k <= j) then comps !! (j - k) ≫= last_mgi else index2mgi st !! j.
Proof.
  revert k st. induction comps as [|c cs IH]; intros k st Hst; cbn [build_index].
  - case_decide as Hj; [by rewrite Hst|reflexivity].
  - rewrite IH.
    2:{ intros j' Hj'. rewrite scan_component_i2m. cbn [index2mgi].
        case_decide; [lia|]. apply Hst. lia. }
    rewrite scan_component_i2m. cbn [index2mgi].
    destruct (decide (S k <= j)) as [H1|H1]; destruct (decide (k <= j)) as [H2|H2]; try lia.
    + replace (j - k) with (S (j - S k)) by lia. reflexivity.
    + assert (j = k) as -> by lia. rewrite Nat.sub_diag.
      rewrite decide_True by reflexivity. rewrite Hst by lia.
      change ((c :: cs) !! 0) with (Some c). cbn [mbind option_bind].
      destruct (last_mgi c); reflexivity.
    + rewrite decide_False by lia. reflexivity.
Qed.

Lemma build_index_m2i_out (k : nat) (comps : list (list GeneId)) (st : Index) (n : GeneId) :
  (forall c, c ∈ comps -> n ∉ c) ->
  member2index (build_index k comps st) !! n = member2index st !! n.
Proof.
  revert k st. induction comps as [|c cs IH]; intros k st Hn; cbn [build_index]; [done|].
  rewrite IH; [|intros c' Hc'; apply Hn, elem_of_cons; by right].
  rewrite scan_component_m2i. case_decide as Hc; [|reflexivity].
  exfalso. apply (Hn c); [apply elem_of_cons; by left|done].
Qed.

Lemma build_index_m2i_some (k : nat) (comps : list (list GeneId)) (st : Index)
  (n : GeneId) (i : nat) :
  member2index (build_index k comps st) !! n = Some i ->
  (exists p c, comps !! p = Some c /\ i = k + p /\ n ∈ c) \/ member2index st !! n = Some i.
Proof.
  revert k st. induction comps as [|c cs IH]; intros k st; cbn [build_index]; [by right|].
  intros H. destruct (IH (S k) _ H) as [(p & c' & Hp & -> & Hn)|Hst].
  - left. exists (S p), c'. split; [done|]. split; [lia|done].
  - rewrite scan_component_m2i in Hst. cbn [member2index] in Hst.
    case_decide as Hc.
    + injection Hst as <-. left. exists 0, c. split; [done|]. split; [lia|done].
    + by right.
Qed.

Lemma build_index_m2i_disj (k : nat) (comps : list (list GeneId)) (st : Index)
  (n : GeneId) (p : nat) (c : list GeneId) :
  (forall i j ci cj x, comps !! i = Some ci -> comps !! j = Some cj ->
                       x ∈ ci -> x ∈ cj -> i = j) ->
  comps !! p = Some c -> n ∈ c ->
  member2index (build_index k comps st) !! n = Some (k + p).
Proof.
  revert k st p. induction comps as [|c0 cs IH]; intros k st p Hdisj Hp Hn; [discriminate|].
  cbn [build_index]. destruct p as [|p].
  - simpl in Hp. injection Hp as ->.
    rewrite build_index_m2i_out.
    + rewrite scan_component_m2i. case_decide; [|contradiction]. f_equal. lia.
    + intros c' Hc' Hn'. apply list_elem_of_lookup in Hc' as [j Hj].
      assert (0 = S j) by (apply (Hdisj 0 (S j) c c' n); done). lia.
  - simpl in Hp. rewrite (IH (S k) _ p); [f_equal; lia| |done|done].
    intros i j ci cj x Hi Hj Hxi Hxj.
    assert (S i = S j) by (apply (Hdisj (S i) (S j) ci cj x); done). lia.
Qed.

(** ** The dictionary [mapping] of cell 12 *)

Lemma mapping_loop_lookup (ix : Index) (vs : list GeneId) (mp : gmap GeneId GeneId)
  (n : GeneId) :
  mapping_loop ix vs mp !! n =
  match (if decide (n ∈ vs) then member2index ix !! n ≫= (fun i => index2mgi ix !! i)
         else None) with
  | Some r => Some r
  | None => mp !! n
  end.
Proof.
  revert mp. induction vs as [|x vs IH]; intros mp; cbn [mapping_loop].
  - case_decide as H; [inversion H|reflexivity].
  - assert (Hcons : n ∈ x :: vs <-> n = x \/ n ∈ vs) by apply elem_of_cons.
    destruct (member2index ix !! x) as [i|] eqn:Ex;
      [destruct (index2mgi ix !! i) as [r|] eqn:Er|]; rewrite IH; [rewrite lookup_insert| |];
      repeat case_decide; subst; rewrite ?Ex; cbn [mbind option_bind]; rewrite ?Er;
      try reflexivity; try (exfalso; tauto);
      match goal with Hm : n ∈ x :: vs |- _ => apply Hcons in Hm as [->|?] end;
      rewrite ?Ex; cbn [mbind option_bind]; rewrite ?Er;
      try reflexivity; try congruence; try contradiction.
Qed.

(** The lookup of [mapping] at a member of the [i]-th component. *)
Lemma orth_mapping_member (G : UGraph) (i : nat) (c : list GeneId) (n : GeneId) :
  ugraph_wf G -> connected_components G !! i = Some c -> n ∈ c ->
  orth_mapping G !! n = last_mgi c.
Proof.
  intros HG Hi Hn.
  destruct (connected_components_spec G HG) as (_ & Hsub & _ & Hdisj).
  unfold orth_mapping. rewrite mapping_loop_lookup, lookup_empty.
  case_decide as Hnv; [|exfalso; apply Hnv; apply (Hsub c); [by eapply list_elem_of_lookup_2|done]].
  unfold orth_index. rewrite (build_index_m2i_disj 0 _ _ n i c Hdisj Hi Hn). simpl.
  rewrite build_index_i2m by done. simpl. rewrite Nat.sub_0_r, Hi. simpl.
  destruct (last_mgi c); reflexivity.
Qed.

Lemma orth_mapping_Some (G : UGraph) (n r : GeneId) :
  ugraph_wf G ->
  orth_mapping G !! n = Some r <->
  exists i c, connected_components G !! i = Some c /\ n ∈ c /\ last_mgi c = Some r.
Proof.
  intros HG. split.
  - intros H. destruct (connected_components_spec G HG) as (Hcov & _ & _ & _).
    assert (Hn : n ∈ unodes G).
    { unfold orth_mapping in H. rewrite mapping_loop_lookup, lookup_empty in H.
      case_decide; [done|discriminate]. }
    destruct (Hcov n Hn) as (c & Hc & Hnc). apply list_elem_of_lookup in Hc as [i Hi].
    exists i, c. split; [done|]. split; [done|].
    by rewrite <- (orth_mapping_member G i c n HG Hi Hnc).
  - intros (i & c & Hi & Hn & Hr). by rewrite (orth_mapping_member G i c n HG Hi Hn).
Qed.

(** The mapping under a scan order [ord] of the component sets. *)
Lemma orth_mapping_ord_member (ord : list GeneId -> list GeneId) (G : UGraph)
  (i : nat) (c : list GeneId) (n : GeneId) :
  ugraph_wf G -> (forall c, ord c ≡ₚ c) ->
  connected_components G !! i = Some c -> n ∈ c ->
  orth_mapping_ord ord G !! n = last_mgi (ord c).
Proof.
  intros HG Hord Hi Hn.
  destruct (connected_components_spec G HG) as (_ & Hsub & _ & Hdisj).
  unfold orth_mapping_ord. rewrite mapping_loop_lookup, lookup_empty.
  case_decide as Hnv; [|exfalso; apply Hnv; apply (Hsub c); [by eapply list_elem_of_lookup_2|done]].
  unfold orth_index_ord.
  rewrite (build_index_m2i_disj 0 _ _ n i (ord c)).
  - simpl. rewrite build_index_i2m by done. simpl.
    rewrite Nat.sub_0_r, list_lookup_fmap, Hi. simpl.
    destruct (last_mgi (ord c)); reflexivity.
  - intros i' j ci cj x Hi' Hj Hxi Hxj. rewrite list_lookup_fmap in Hi', Hj.
    destruct (connected_components G !! i') as [c1|] eqn:E1; [|discriminate].
    destruct (connected_components G !! j) as [c2|] eqn:E2; [|discriminate].
    injection Hi' as <-. injection Hj as <-.
    apply (Hdisj i' j c1 c2 x E1 E2); [by rewrite <- (Hord c1)|by rewrite <- (Hord c2)].
  - by rewrite list_lookup_fmap, Hi.
  - by rewrite (Hord c).
Qed.

Lemma orth_mapping_ord_out (ord : list GeneId -> list GeneId) (G : UGraph) (n : GeneId) :
  n ∉ unodes G -> orth_mapping_ord ord G !! n = None.
Proof.
  intros Hn. unfold orth_mapping_ord. rewrite mapping_loop_lookup, lookup_empty.
  by rewrite decide_False.
Qed.

Lemma orth_mapping_ord_Some (ord : list GeneId -> list GeneId) (G : UGraph) (n r : GeneId) :
  ugraph_wf G -> (forall c, ord c ≡ₚ c) ->
  orth_mapping_ord ord G !! n = Some r ->
  exists i c, connected_components G !! i = Some c /\ n ∈ c /\ last_mgi (ord c) = Some r.
Proof.
  intros HG Hord H. destruct (connected_components_spec G HG) as (Hcov & _ & _ & _).
  destruct (decide (n ∈ unodes G)) as [Hn|Hn]; [|by rewrite orth_mapping_ord_out in H].
  destruct (Hcov n Hn) as (c & Hc & Hnc). apply list_elem_of_lookup in Hc as [i Hi].
  exists i, c. split; [done|]. split; [done|].
  by rewrite <- (orth_mapping_ord_member ord G i c n HG Hord Hi Hnc).
Qed.

(** The scan order in yield order is [orth_mapping]. *)
Lemma orth_mapping_ord_id (G : UGraph) :
  orth_mapping_ord (fun c => c) G = orth_mapping G.
Proof. unfold orth_mapping_ord, orth_index_ord. by rewrite map_id. Qed.

(** With at most one MGI member, the scan order does not change the last
    one. *)
Lemma last_mgi_perm (c c' : list GeneId) :
  length (filter is_mgi c) <= 1 -> c' ≡ₚ c -> last_mgi c' = last_mgi c.
Proof.
  intros Hlen Hp. unfold last_mgi.
  assert (Hf : filter is_mgi c' ≡ₚ filter is_mgi c) by (by rewrite Hp).
  destruct (filter is_mgi c) as [|x [|y l]] eqn:E; simpl in Hlen; [| |lia].
  - apply Permutation_nil_r in Hf. by rewrite Hf.
  - symmetry in Hf. apply Permutation_length_1_inv in Hf. by rewrite Hf.
Qed.

(** ** Graphs built from an edge list *)

Lemma elem_of_dedup (l : list GeneId) (x : GeneId) : x ∈ dedup l <-> x ∈ l.
Proof.
  induction l as [|y l IH]; simpl; [done|].
  rewrite !elem_of_cons, list_elem_of_filter, IH.
  destruct (decide (x = y)); naive_solver.
Qed.

Lemma NoDup_dedup (l : list GeneId) : NoDup (dedup l).
Proof.
  induction l as [|y l IH]; simpl; constructor.
  - rewrite list_elem_of_filter. tauto.
  - by apply NoDup_filter.
Qed.

Lemma elem_of_touched (E : list (GeneId * GeneId)) (n : GeneId) :
  n ∈ touched E <-> exists a b, (a, b) ∈ E /\ (n = a \/ n = b).
Proof.
  unfold touched. rewrite elem_of_dedup.
  induction E as [|[a b] E IH]; simpl.
  - split; [intros H; inversion H|]. intros (a & b & H & _). inversion H.
  - rewrite !elem_of_cons, IH. split.
    + intros [->|[->|(a' & b' & H & Hn)]].
      * exists a, b. split; [apply elem_of_cons; by left|by left].
      * exists a, b. split; [apply elem_of_cons; by left|by right].
      * exists a', b'. split; [apply elem_of_cons; by right|done].
    + intros (a' & b' & H & Hn). apply elem_of_cons in H as [[= -> ->]|H]; [tauto|].
      right; right. by exists a', b'.
Qed.

Lemma lookup_node_attrs_map (l : list GeneId) (n : GeneId) :
  is_Some ((list_to_map (map (fun n => (n, bel_node_attrs n)) l) : gmap GeneId Attrs) !! n)
  <-> n ∈ l.
Proof.
  induction l as [|y l IH]; simpl.
  - rewrite lookup_empty. split; [intros [? H]; discriminate|intros H; inversion H].
  - rewrite lookup_insert, elem_of_cons. case_decide; subst; [split; [by left|done]|].
    rewrite IH. split; [by right|]. intros [->|?]; [congruence|done].
Qed.

Lemma graph_of_edges_wf (E : list (GeneId * GeneId)) : ugraph_wf (graph_of_edges E).
Proof.
  unfold ugraph_wf, graph_of_edges; simpl. split; [apply NoDup_dedup|].
  split; [|split].
  - apply Forall_forall. intros [a b] He. simpl. rewrite !elem_of_touched.
    split; exists a, b; tauto.
  - apply Forall_forall. intros n Hn. by apply lookup_node_attrs_map.
  - intros n d Hd. apply lookup_node_attrs_map. by exists d.
Qed.

(** ** The mapping depends only on the node sequence and the edges *)

Lemma scan_level_ext (G G' : UGraph) (th seen next : list GeneId) :
  uedges G' = uedges G -> scan_level G' th seen next = scan_level G th seen next.
Proof.
  intros He. revert seen next. induction th as [|v th IH]; intros seen next; simpl; [done|].
  unfold neighbors. rewrite He. case_decide; apply IH.
Qed.

Lemma bfs_loop_ext (G G' : UGraph) (fuel : nat) (seen next : list GeneId) :
  uedges G' = uedges G -> bfs_loop G' fuel seen next = bfs_loop G fuel seen next.
Proof.
  intros He. revert seen next. induction fuel as [|fuel IH]; intros seen next; simpl; [done|].
  destruct next as [|v rest]; [done|]. rewrite (scan_level_ext G G') by done.
  destruct (scan_level G (v :: rest) seen []). apply IH.
Qed.

Lemma components_loop_ext (G G' : UGraph) (vs seen : list GeneId) :
  unodes G' = unodes G -> uedges G' = uedges G ->
  components_loop G' vs seen = components_loop G vs seen.
Proof.
  intros Hn He. revert seen. induction vs as [|v vs IH]; intros seen; simpl; [done|].
  unfold plain_bfs. rewrite Hn, (bfs_loop_ext G G') by done.
  case_decide; [apply IH|]. f_equal. apply IH.
Qed.

Lemma orth_mapping_ext (G G' : UGraph) :
  unodes G' = unodes G -> uedges G' = uedges G -> orth_mapping G' = orth_mapping G.
Proof.
  intros Hn He. unfold orth_mapping, orth_index, connected_components.
  rewrite (components_loop_ext G G') by done. by rewrite Hn.
Qed.

(** ** Facts about [mapping] shared by the claims below *)

Lemma mapping_value_fixed (G : UGraph) (k r : GeneId) :
  ugraph_wf G -> orth_mapping G !! k = Some r -> orth_mapping G !! r = Some r.
Proof.
  intros HG Hk. apply orth_mapping_Some in Hk as (i & c & Hi & Hkc & Hr); [|done].
  apply orth_mapping_Some; [done|]. exists i, c. split; [done|].
  split; [|done]. by apply last_mgi_elem in Hr as [? _].
Qed.

Lemma mapping_value_node (G : UGraph) (k r : GeneId) :
  ugraph_wf G -> orth_mapping G !! k = Some r -> r ∈ unodes G.
Proof.
  intros HG Hk. apply orth_mapping_Some in Hk as (i & c & Hi & Hkc & Hr); [|done].
  destruct (connected_components_spec G HG) as (_ & Hsub & _ & _).
  apply (Hsub c); [by eapply list_elem_of_lookup_2|]. by apply last_mgi_elem in Hr as [? _].
Qed.

Lemma mapping_value_attr (G : UGraph) (k r : GeneId) :
  ugraph_wf G -> orth_mapping G !! k = Some r -> is_Some (uattr G !! r).
Proof.
  intros HG Hk. pose proof (mapping_value_node G k r HG Hk) as Hr.
  destruct HG as (_ & _ & Hat & _). rewrite Forall_forall in Hat. by apply Hat.
Qed.

(** ** C1 *)

(** C1 (as stated, refuted): for the TP53 edges, the mapping is not
    {TP53 ↦ Trp53, Tp53 ↦ Trp53}: the MGI node [Trp53] is itself a key,
    mapped to itself. *)
Lemma tp53_mapping_has_mgi_key :
  orth_mapping tp53_orthology !! Trp53_MGI = Some Trp53_MGI /\
  orth_mapping tp53_orthology <> {[TP53_HGNC := Trp53_MGI; Tp53_RGD := Trp53_MGI]}.
Proof.
  split; [reflexivity|]. intros H.
  assert (Hl : orth_mapping tp53_orthology !! Trp53_MGI = None).
  { rewrite H. reflexivity. }
  discriminate Hl.
Qed.

(** C1 (amended): the TP53 edges give one component of size 3, and the
    mapping sends each of its three members, [Trp53] included, to
    [(Gene, MGI, Trp53)]. *)
Theorem tp53_example :
  exists c, connected_components tp53_orthology = [c] /\ length c = 3 /\
  (forall n, n ∈ c <-> n = TP53_HGNC \/ n = Trp53_MGI \/ n = Tp53_RGD) /\
  orth_mapping tp53_orthology =
  {[TP53_HGNC := Trp53_MGI; Trp53_MGI := Trp53_MGI; Tp53_RGD := Trp53_MGI]}.
Proof.
  exists [TP53_HGNC; Trp53_MGI; Tp53_RGD]. split; [reflexivity|]. split; [reflexivity|].
  split.
  - intros n. rewrite !elem_of_cons, elem_of_nil. tauto.
  - apply (bool_decide_eq_true_1 _). vm_compute. reflexivity.
Qed.

(** ** C4 *)

(** C4: [mapping.get(r, r) == r] for every value [r] of the mapping. *)
Theorem mapping_idempotent (G : UGraph) :
  ugraph_wf G ->
  forall k r, orth_mapping G !! k = Some r -> default r (orth_mapping G !! r) = r.
Proof.
  intros HG k r Hk. by rewrite (mapping_value_fixed G k r HG Hk).
Qed.

Lemma mapping_idempotent_witness :
  ugraph_wf tp53_orthology /\ orth_mapping tp53_orthology !! TP53_HGNC = Some Trp53_MGI /\
  default Trp53_MGI (orth_mapping tp53_orthology !! Trp53_MGI) = Trp53_MGI.
Proof.
  assert (HG : ugraph_wf tp53_orthology)
    by (apply (bool_decide_eq_true_1 _); vm_compute; reflexivity).
  assert (Hk : orth_mapping tp53_orthology !! TP53_HGNC = Some Trp53_MGI) by reflexivity.
  split; [exact HG|]. split; [exact Hk|].
  exact (mapping_idempotent tp53_orthology HG TP53_HGNC Trp53_MGI Hk).
Defined.

(** ** C5 *)

(** C5 (as stated, refuted): the orthology graph [TP53 - Trp53],
    [TP53 - Trp53-ps] has one component with two MGI members. Scanned in
    the yield order of [_plain_bfs], [TP53] is mapped to [Trp53-ps]; scanned
    in the reverse order, which is another iteration order of the same
    Python set, it is mapped to [Trp53]. The node sequence and the edges are
    the same, the mapping is not. *)
Lemma two_mgi_scan_order_differs :
  ugraph_wf two_mgi_orthology /\
  (forall c : list GeneId, rev c ≡ₚ c) /\
  orth_mapping_ord (fun c => c) two_mgi_orthology !! TP53_HGNC = Some Trp53ps_MGI /\
  orth_mapping_ord (@rev GeneId) two_mgi_orthology !! TP53_HGNC = Some Trp53_MGI.
Proof.
  split; [decide_by_eval|]. split; [intros c; symmetry; apply Permutation_rev|].
  split; vm_compute; reflexivity.
Qed.

(** C5 (amended): for every iteration order [ord] of the component sets,
    every value of the mapping is in namespace MGI and in the same connected
    component as its key (one component of the enumeration holds both, and
    they are connected in the undirected graph); when every component has
    at most one MGI member, the mapping does not depend on the iteration
    order. *)
Theorem mapping_values_canonical (G : UGraph) (ord : list GeneId -> list GeneId) :
  ugraph_wf G -> (forall c, ord c ≡ₚ c) ->
  (forall k r, orth_mapping_ord ord G !! k = Some r ->
     node_namespace r = "MGI" /\
     (exists i c, connected_components G !! i = Some c /\ k ∈ c /\ r ∈ c) /\
     reach G k r) /\
  ((forall c, c ∈ connected_components G ->
      length (filter (fun n => node_namespace n = "MGI") c) <= 1) ->
   forall ord', (forall c, ord' c ≡ₚ c) -> orth_mapping_ord ord' G = orth_mapping_ord ord G).
Proof.
  intros HG Hord. split.
  - intros k r Hk. apply (orth_mapping_ord_Some ord G k r HG Hord) in Hk as (i & c & Hi & Hkc & Hr).
    apply last_mgi_elem in Hr as [Hrc Hns]. rewrite (Hord c) in Hrc. split; [done|].
    split; [by exists i, c|].
    destruct (connected_components_spec G HG) as (_ & _ & Hcls & _).
    destruct (Hcls c) as (v & _ & _ & Hreach); [by eapply list_elem_of_lookup_2|].
    unfold reach. eapply rtc_trans; [apply reach_sym, Hreach, Hkc|apply Hreach, Hrc].
  - intros Hone ord' Hord'. apply map_eq. intros n.
    destruct (decide (n ∈ unodes G)) as [Hn|Hn]; [|by rewrite !orth_mapping_ord_out].
    destruct (connected_components_spec G HG) as (Hcov & _ & _ & _).
    destruct (Hcov n Hn) as (c & Hc & Hnc).
    assert (Hlen : length (filter is_mgi c) <= 1).
    { etrans; [|exact (Hone c Hc)]. apply Nat.eq_le_incl. f_equal.
      apply list_filter_iff. intros x. unfold is_mgi. split; by intros ->. }
    apply list_elem_of_lookup in Hc as [i Hi].
    rewrite (orth_mapping_ord_member ord' G i c n HG Hord' Hi Hnc),
            (orth_mapping_ord_member ord G i c n HG Hord Hi Hnc).
    by rewrite (last_mgi_perm c (ord' c)), (last_mgi_perm c (ord c)).
Qed.

Lemma mapping_values_canonical_witness :
  ugraph_wf tp53_orthology /\ (forall c : list GeneId, rev c ≡ₚ c) /\
  node_namespace Trp53_MGI = "MGI" /\
  orth_mapping_ord (@rev GeneId) tp53_orthology = orth_mapping_ord (fun c => c) tp53_orthology.
Proof.
  assert (HG : ugraph_wf tp53_orthology) by decide_by_eval.
  assert (Hrev : forall c : list GeneId, rev c ≡ₚ c) by (intros c; symmetry; apply Permutation_rev).
  split; [exact HG|]. split; [exact Hrev|]. split.
  - exact (proj1 (proj1 (mapping_values_canonical tp53_orthology (@rev GeneId) HG Hrev)
                    Tp53_RGD Trp53_MGI ltac:(vm_compute; reflexivity))).
  - apply (proj2 (mapping_values_canonical tp53_orthology (fun c => c) HG (fun c => reflexivity c)));
      [|exact Hrev].
    intros c Hc. assert (Hcs : connected_components tp53_orthology = [[TP53_HGNC; Trp53_MGI; Tp53_RGD]])
      by (vm_compute; reflexivity).
    rewrite Hcs in Hc. apply list_elem_of_singleton in Hc as ->. vm_compute. lia.
Defined.

(** ** C6 *)

(** C6: in a component [c] whose last MGI member in scan order is [r]
    (every member after [r] is outside MGI), [index2mgi] records [r], and
    every member of [c] is mapped to [r]. *)
Theorem last_mgi_wins (G : UGraph) (i : nat) (c : list GeneId) (r : GeneId) :
  ugraph_wf G -> connected_components G !! i = Some c ->
  (exists pre post, c = pre ++ r :: post /\ node_namespace r = "MGI" /\
                    forall x, x ∈ post -> node_namespace x <> "MGI") ->
  index2mgi (orth_index G) !! i = Some r /\
  forall m, m ∈ c -> orth_mapping G !! m = Some r.
Proof.
  intros HG Hi Hlast.
  assert (Hr : last_mgi c = Some r).
  { apply last_mgi_Some. destruct Hlast as (pre & post & -> & Hns & Hpost).
    exists pre, post. split; [done|]. split; [unfold is_mgi; by rewrite Hns|].
    intros x Hx Hm. apply (Hpost x Hx). by rewrite <- Hm. }
  split.
  - unfold orth_index. rewrite build_index_i2m by done.
    simpl. rewrite Nat.sub_0_r, Hi. exact Hr.
  - intros m Hm. by rewrite (orth_mapping_member G i c m HG Hi Hm).
Qed.

Lemma last_mgi_wins_witness :
  ugraph_wf two_mgi_orthology /\
  connected_components two_mgi_orthology = [[TP53_HGNC; Trp53_MGI; Trp53ps_MGI]] /\
  index2mgi (orth_index two_mgi_orthology) !! 0 = Some Trp53ps_MGI.
Proof.
  assert (HG : ugraph_wf two_mgi_orthology)
    by (apply (bool_decide_eq_true_1 _); vm_compute; reflexivity).
  assert (Hc : connected_components two_mgi_orthology = [[TP53_HGNC; Trp53_MGI; Trp53ps_MGI]])
    by reflexivity.
  split; [exact HG|]. split; [exact Hc|].
  refine (proj1 (last_mgi_wins two_mgi_orthology 0 [TP53_HGNC; Trp53_MGI; Trp53ps_MGI]
                   Trp53ps_MGI HG ltac:(rewrite Hc; reflexivity) _)).
  exists [TP53_HGNC; Trp53_MGI], []. split; [reflexivity|]. split; [reflexivity|].
  intros x Hx. inversion Hx.
Defined.

(** ** C7 *)

(** C7: for every edge list [E], the components of the graph built from [E]
    partition the nodes touched by [E]: each touched node is in a component,
    in only one, components hold only touched nodes, and none is empty. *)
Theorem components_partition (E : list (GeneId * GeneId)) :
  let C := connected_components (graph_of_edges E) in
  (forall n, n ∈ touched E <-> exists a b, (a, b) ∈ E /\ (n = a \/ n = b)) /\
  (forall n, n ∈ touched E -> exists i c, C !! i = Some c /\ n ∈ c) /\
  (forall i j ci cj n, C !! i = Some ci -> C !! j = Some cj ->
                       n ∈ ci -> n ∈ cj -> i = j) /\
  (forall c n, c ∈ C -> n ∈ c -> n ∈ touched E) /\
  (forall c, c ∈ C -> c <> []).
Proof.
  destruct (connected_components_spec _ (graph_of_edges_wf E)) as (Hcov & Hsub & Hcls & Hdisj).
  simpl in *. split; [apply elem_of_touched|]. split.
  { intros n Hn. destruct (Hcov n Hn) as (c & Hc & Hnc).
    apply list_elem_of_lookup in Hc as [i Hi]. by exists i, c. }
  split; [exact Hdisj|]. split; [exact Hsub|].
  intros c Hc ->. destruct (Hcls [] Hc) as (v & Hv & _). inversion Hv.
Qed.

(** ** C8 *)

(** C8: a component without an MGI member contributes no key to the
    mapping; an empty edge list gives an empty mapping, and so does the
    FOO/Foo example. *)
Theorem no_mgi_component_unmapped (G : UGraph) (i : nat) (c : list GeneId) :
  ugraph_wf G -> connected_components G !! i = Some c ->
  (forall x, x ∈ c -> node_namespace x <> "MGI") ->
  (forall m, m ∈ c -> orth_mapping G !! m = None) /\
  orth_mapping (graph_of_edges []) = ∅ /\
  orth_mapping foo_orthology = ∅.
Proof.
  intros HG Hi Hno. split; [|split; [reflexivity|apply (bool_decide_eq_true_1 _); vm_compute; reflexivity]].
  intros m Hm. rewrite (orth_mapping_member G i c m HG Hi Hm).
  apply last_mgi_None. intros x Hx Hmgi. apply (Hno x Hx). by rewrite <- Hmgi.
Qed.

Lemma no_mgi_component_unmapped_witness :
  ugraph_wf foo_orthology /\ orth_mapping foo_orthology !! FOO_HGNC = None.
Proof.
  assert (HG : ugraph_wf foo_orthology)
    by (apply (bool_decide_eq_true_1 _); vm_compute; reflexivity).
  split; [exact HG|].
  refine (proj1 (no_mgi_component_unmapped foo_orthology 0 [FOO_HGNC; Foo_RGD] HG
                   ltac:(reflexivity) _) FOO_HGNC ltac:(apply elem_of_cons; by left)).
  intros x Hx. apply elem_of_cons in Hx as [->|Hx];
    [|apply elem_of_cons in Hx as [->|Hx]; [|inversion Hx]]; discriminate.
Defined.

(** ** C10 *)

(** C10: every node of the orthology graph is a key of [member2index], so
    the [continue] of the membership guard of cell 12 is never taken. *)
Theorem member2index_total (G : UGraph) :
  ugraph_wf G ->
  (forall n, n ∈ unodes G -> is_Some (member2index (orth_index G) !! n)) /\
  guard_skips G = false.
Proof.
  intros HG.
  assert (Htot : forall n, n ∈ unodes G -> is_Some (member2index (orth_index G) !! n)).
  { intros n Hn. destruct (connected_components_spec G HG) as (Hcov & _ & _ & Hdisj).
    destruct (Hcov n Hn) as (c & Hc & Hnc). apply list_elem_of_lookup in Hc as [i Hi].
    unfold orth_index. rewrite (build_index_m2i_disj 0 _ _ n i c Hdisj Hi Hnc). by eexists. }
  split; [exact Htot|].
  unfold guard_skips. destruct (existsb _ (unodes G)) eqn:E; [|reflexivity].
  apply existsb_exists in E as (n & Hn & Hf).
  apply list_elem_of_In in Hn. destruct (Htot n Hn) as [j Hj]. rewrite Hj in Hf. discriminate.
Qed.

Lemma member2index_total_witness :
  ugraph_wf tp53_orthology /\ guard_skips tp53_orthology = false.
Proof.
  assert (HG : ugraph_wf tp53_orthology)
    by (apply (bool_decide_eq_true_1 _); vm_compute; reflexivity).
  split; [exact HG|]. exact (proj2 (member2index_total tp53_orthology HG)).
Defined.

(* ------------------------------------------------------------------ *)
(** ** One iteration of [_relabel_inplace] *)

Lemma elem_of_map_iff {A B} (f : A -> B) (l : list A) (y : B) :
  y ∈ map f l <-> exists x, y = f x /\ x ∈ l.
Proof.
  induction l as [|x l IH]; simpl.
  - split; [intros H; inversion H|intros (? & _ & H); inversion H].
  - rewrite elem_of_cons, IH. split.
    + intros [->|(x' & -> & Hx)]; [exists x; split; [done|apply elem_of_cons; by left]|].
      exists x'. split; [done|apply elem_of_cons; by right].
    + intros (x' & -> & Hx). apply elem_of_cons in Hx as [->|Hx]; [by left|right; eauto].
Qed.

Lemma gedge_ensure_node (n : GeneId) (G : MGraph) : gedge (ensure_node n G) = gedge G.
Proof. unfold ensure_node. by destruct (gnode G !! n). Qed.

Lemma gnode_ensure_node (n : GeneId) (G : MGraph) (x : GeneId) :
  is_Some (gnode G !! x) -> is_Some (gnode (ensure_node n G) !! x).
Proof.
  unfold ensure_node. destruct (gnode G !! n) eqn:E; [done|]. simpl.
  intros Hx. destruct (decide (x = n)) as [->|Hne]; [rewrite lookup_insert_eq; by eexists|].
  by rewrite lookup_insert_ne by congruence.
Qed.

Lemma gnode_add_edges_from (es : list (EdgeKey * Attrs)) (G : MGraph) :
  Forall (fun e => is_Some (gnode G !! e.1.1.1) /\ is_Some (gnode G !! e.1.1.2)) es ->
  gnode (add_edges_from es G) = gnode G.
Proof.
  revert G. induction es as [|[k d] es IH]; intros G Hes; [done|].
  change (add_edges_from ((k, d) :: es) G) with (add_edges_from es (add_edge4 (k, d) G)).
  apply Forall_cons in Hes as [[H1 H2] Hes]. simpl in H1, H2.
  assert (Hg : gnode (add_edge4 (k, d) G) = gnode G).
  { unfold add_edge4. simpl. unfold ensure_node at 2.
    destruct H1 as [? ->]. unfold ensure_node. destruct H2 as [? ->]. reflexivity. }
  rewrite IH; [exact Hg|]. by rewrite Hg.
Qed.

Lemma gedge_add_edges_from (es : list (EdgeKey * Attrs)) (G : MGraph) (k : EdgeKey) :
  is_Some (gedge (add_edges_from es G) !! k) <->
  is_Some (gedge G !! k) \/ exists d, (k, d) ∈ es.
Proof.
  revert G. induction es as [|[k' d'] es IH]; intros G.
  - simpl. split; [by left|intros [?|(? & H)]; [done|inversion H]].
  - change (add_edges_from ((k', d') :: es) G) with (add_edges_from es (add_edge4 (k', d') G)).
    rewrite IH. unfold add_edge4; simpl. rewrite !gedge_ensure_node.
    destruct (decide (k = k')) as [->|Hne].
    + rewrite lookup_insert_eq. split; [intros _; right; exists d'; apply elem_of_cons; by left|].
      intros _. left. by eexists.
    + rewrite lookup_insert_ne by congruence. split.
      * intros [?|(d & Hd)]; [by left|right; exists d; apply elem_of_cons; by right].
      * intros [?|(d & Hd)]; [by left|]. apply elem_of_cons in Hd as [Hd|Hd].
        -- inversion Hd. congruence.
        -- right. by exists d.
Qed.

Lemma elem_of_out_edges (old : GeneId) (G : MGraph) (k : EdgeKey) (d : Attrs) :
  (k, d) ∈ out_edges old G <-> gedge G !! k = Some d /\ k.1.1 = old.
Proof. unfold out_edges. by rewrite elem_of_map_to_list, map_lookup_filter_Some. Qed.

Lemma elem_of_in_edges (old : GeneId) (G : MGraph) (k : EdgeKey) (d : Attrs) :
  (k, d) ∈ in_edges old G <-> gedge G !! k = Some d /\ k.1.2 = old.
Proof. unfold in_edges. by rewrite elem_of_map_to_list, map_lookup_filter_Some. Qed.

Lemma elem_of_new_edges (old new : GeneId) (G : MGraph) (k : EdgeKey) (d : Attrs) :
  (k, d) ∈ new_edges old new G <->
  exists x y k0, gedge G !! (x, y, k0) = Some d /\ (x = old \/ y = old) /\
                 k = (ren old new x, ren old new y, k0).
Proof.
  unfold new_edges. rewrite elem_of_app, !elem_of_map_iff. unfold ren. split.
  - intros [([[[x y] k0] d0] & Heq & Hin)|([[[x y] k0] d0] & Heq & Hin)].
    + apply elem_of_out_edges in Hin as [Hl Hx]. simpl in *. subst x.
      simpl in Heq. inversion Heq; subst. exists old, y, k0.
      split; [done|]. split; [by left|]. repeat case_decide; congruence.
    + apply elem_of_in_edges in Hin as [Hl Hy]. simpl in *. subst y.
      simpl in Heq. inversion Heq; subst. exists x, old, k0.
      split; [done|]. split; [by right|]. repeat case_decide; congruence.
  - intros (x & y & k0 & Hl & [->| ->] & ->).
    + left. exists ((old, y, k0), d). split.
      * simpl. repeat case_decide; congruence.
      * by apply elem_of_out_edges.
    + right. exists ((x, old, k0), d). split.
      * simpl. repeat case_decide; congruence.
      * by apply elem_of_in_edges.
Qed.

Lemma lookup_add_node (n : GeneId) (a : Attrs) (G : MGraph) (x : GeneId) :
  gnode (add_node n a G) !! x =
  if decide (x = n)
  then Some (match gnode G !! n with Some d => dict_update d a | None => a end)
  else gnode G !! x.
Proof.
  unfold add_node; simpl. destruct (gnode G !! n) eqn:E; case_decide; subst;
    rewrite ?lookup_insert_eq, ?lookup_insert_ne by congruence; congruence.
Qed.

Lemma relabel_step_shape (old new : GeneId) (a : Attrs) (G : MGraph) :
  mgraph_wf G -> gnode G !! old = Some a -> new <> old ->
  let G1 := add_node new a G in
  let G' := add_edges_from (new_edges old new G1) (remove_node old G1) in
  (forall x, gnode G' !! x =
     if decide (x = old) then None
     else if decide (x = new)
     then Some (match gnode G !! new with Some d => dict_update d a | None => a end)
     else gnode G !! x) /\
  (forall k, is_Some (gedge G' !! k) <->
     exists x y k0, is_Some (gedge G !! (x, y, k0)) /\
                    k = (ren old new x, ren old new y, k0)).
Proof.
  intros HG Ha Hne G1 G'.
  set (G2 := remove_node old G1).
  assert (He1 : gedge G1 = gedge G) by reflexivity.
  assert (Hn2 : forall x, gnode G2 !! x =
     if decide (x = old) then None
     else if decide (x = new)
     then Some (match gnode G !! new with Some d => dict_update d a | None => a end)
     else gnode G !! x).
  { intros x. unfold G2, remove_node; simpl. case_decide as Hx.
    - subst. apply lookup_delete_eq.
    - rewrite lookup_delete_ne by congruence. apply lookup_add_node. }
  assert (Hren : forall z, is_Some (gnode G !! z) -> is_Some (gnode G2 !! ren old new z)).
  { intros z Hz. rewrite Hn2. unfold ren.
    destruct (decide (z = old)) as [->|Hzo].
    - rewrite decide_False by congruence. rewrite decide_True by done. by eexists.
    - rewrite decide_False by congruence. case_decide; [by eexists|done]. }
  assert (Hg : gnode G' = gnode G2).
  { apply gnode_add_edges_from. apply Forall_forall. intros [k d] Hin.
    apply elem_of_new_edges in Hin as (x & y & k0 & Hl & _ & ->). simpl.
    rewrite He1 in Hl. destruct (HG _ _ Hl) as [Hx Hy]. simpl in Hx, Hy.
    split; by apply Hren. }
  split; [intros x; rewrite Hg; apply Hn2|].
  intros k. unfold G'. rewrite gedge_add_edges_from.
  unfold G2, remove_node; simpl. rewrite ?He1. split.
  - intros [[d Hd]|(d & Hd)].
    + apply map_lookup_filter_Some in Hd as [Hd [Hx Hy]].
      destruct k as [[x y] k0]. simpl in Hx, Hy. exists x, y, k0.
      split; [by eexists|]. unfold ren. by rewrite !decide_False by congruence.
    + apply elem_of_new_edges in Hd as (x & y & k0 & Hl & _ & ->).
      rewrite ?He1 in Hl. exists x, y, k0. split; [by eexists|done].
  - intros (x & y & k0 & [d Hd] & ->).
    destruct (decide (x = old \/ y = old)) as [Ho|Ho].
    + right. exists d. apply elem_of_new_edges. exists x, y, k0.
      rewrite ?He1. auto.
    + left. unfold ren. rewrite !decide_False by tauto. exists d.
      apply map_lookup_filter_Some. simpl. split; [done|tauto].
Qed.

(** ** The loop of [_relabel_inplace] *)

Lemma ren_neq_old (old new y : GeneId) : new <> old -> ren old new y <> old.
Proof. unfold ren. case_decide; congruence. Qed.

Lemma ren_eq_new (old new y : GeneId) : ren old new y = new <-> y = old \/ y = new.
Proof. unfold ren. case_decide; split; intros; subst; tauto. Qed.

Lemma ren_eq_other (old new y z : GeneId) :
  z <> old -> z <> new -> ren old new y = z <-> y = z.
Proof. unfold ren. case_decide; split; intros; subst; congruence. Qed.

Lemma relabel_inv_init (G0 : MGraph) : mgraph_wf G0 -> relabel_inv G0 (fun u => u) G0.
Proof.
  intros HG. split; [done|]. split; [intros z; split; [intros ?; by exists z|by intros (u & ? & <-)]|].
  split; [intros z w k; split; [intros ?; by exists z, w|by intros (u & v & ? & <- & <-)]|].
  split; [intros z x; split; [intros (d & ? & ?); by exists z, d|intros (u & d0 & ? & <- & ?); by exists d0]|].
  done.
Qed.

Lemma relabel_inv_ext (G0 : MGraph) (g g' : GeneId -> GeneId) (G : MGraph) :
  mgraph_wf G0 -> (forall u, is_Some (gnode G0 !! u) -> g u = g' u) ->
  relabel_inv G0 g G -> relabel_inv G0 g' G.
Proof.
  intros HG0 Hg (Hwf & HN & HE & HA & HS). split; [done|]. split; [|split; [|split]].
  - intros z. rewrite HN. split; intros (u & Hu & Hz); exists u; split; try done.
    + by rewrite <- Hg.
    + by rewrite Hg.
  - intros z w k. rewrite HE. split; intros (u & v & [d Hd] & Hz & Hw);
      destruct (HG0 _ _ Hd) as [Hu Hv]; simpl in Hu, Hv; exists u, v;
      (split; [by eexists|]).
    + rewrite <- !Hg by done. done.
    + rewrite !Hg by done. done.
  - intros z x. rewrite HA. split; intros (u & d0 & Hd0 & Hz & Hx); exists u, d0;
      (split; [done|split; [|done]]).
    + rewrite <- Hg by (by eexists). done.
    + rewrite Hg by (by eexists). done.
  - intros z Hz Hgz Hpre. apply HS; [done|by rewrite Hg|].
    intros u Hu Hgu. apply Hpre; [done|by rewrite <- Hg].
Qed.

Lemma relabel_inv_step (G0 : MGraph) (g : GeneId -> GeneId) (G : MGraph)
  (old new : GeneId) (a : Attrs) :
  relabel_inv G0 g G -> is_Some (gnode G0 !! old) ->
  (forall u, is_Some (gnode G0 !! u) -> g u = old <-> u = old) ->
  new <> old -> gnode G !! old = Some a ->
  relabel_inv G0 (fun u => ren old new (g u))
    (add_edges_from (new_edges old new (add_node new a G)) (remove_node old (add_node new a G))).
Proof.
  intros (Hwf & HN & HE & HA & HS) Hold Hpre Hne Ha.
  pose proof (relabel_step_shape old new a G Hwf Ha Hne) as Hsh. cbn zeta in Hsh.
  set (G' := add_edges_from _ _) in Hsh |- *. destruct Hsh as [Hn' He'].
  assert (Hgold : g old = old) by (apply Hpre; done).
  assert (Hnode : forall z, is_Some (gnode G !! z) -> is_Some (gnode G' !! ren old new z)).
  { intros z Hz. rewrite Hn'. unfold ren. destruct (decide (z = old)) as [->|Hzo].
    - rewrite decide_False by congruence. rewrite decide_True by done. by eexists.
    - rewrite decide_False by congruence. case_decide; [by eexists|done]. }
  split; [|split; [|split; [|split]]].
  - (* well-formed *)
    intros k d Hk. assert (Hks : is_Some (gedge G' !! k)) by (by eexists).
    apply He' in Hks as (x & y & k0 & [d1 Hd1] & ->). destruct (Hwf _ _ Hd1) as [Hx Hy].
    simpl in *. split; by apply Hnode.
  - (* nodes *)
    intros z. rewrite Hn'. destruct (decide (z = old)) as [->|Hzo].
    + split; [intros [? Hc]; discriminate|]. intros (u & _ & Hu). exfalso. exact (ren_neq_old old new (g u) Hne Hu).
    + destruct (decide (z = new)) as [->|Hzn].
      * split; [intros _; exists old; split; [done|]; rewrite Hgold; apply ren_eq_new; by left|].
        intros _. by eexists.
      * rewrite HN. split; intros (u & Hu & Hz); exists u; split; try done.
        -- by apply ren_eq_other.
        -- by apply (ren_eq_other old new).
  - (* edges *)
    intros z w k. rewrite He'. split.
    + intros (x & y & k0 & Hxy & Heq). inversion Heq; subst.
      apply HE in Hxy as (u & v & Huv & <- & <-). by exists u, v.
    + intros (u & v & Huv & <- & <-). exists (g u), (g v), k.
      split; [apply HE; by exists u, v|done].
  - (* attribute keys *)
    intros z x. rewrite Hn'. destruct (decide (z = old)) as [->|Hzo].
    + split; [intros (d & Hd & _); discriminate|].
      intros (u & d0 & _ & Hu & _). exfalso. exact (ren_neq_old old new (g u) Hne Hu).
    + destruct (decide (z = new)) as [->|Hzn].
      * assert (Hold_keys : is_Some (a !! x) <->
                  exists u d0, gnode G0 !! u = Some d0 /\ g u = old /\ is_Some (d0 !! x)).
        { rewrite <- HA. split; [intros ?; by exists a|]. intros (d & Hd & ?).
          rewrite Ha in Hd. by inversion Hd; subst. }
        assert (Hnew_keys := HA new x).
        assert (Hlhs : (exists d, Some (match gnode G !! new with
                                          | Some d => dict_update d a | None => a end) = Some d
                                   /\ is_Some (d !! x)) <->
                       is_Some (a !! x) \/
                       exists d, gnode G !! new = Some d /\ is_Some (d !! x)).
        { unfold dict_update. destruct (gnode G !! new) as [dn|] eqn:En.
          - split.
            + intros (d & Hd & Hx). inversion Hd; subst.
              apply lookup_union_is_Some in Hx as [?|?]; [by left|right; by exists dn].
            + intros [Hx|(d & Hd & Hx)]; exists (a ∪ dn); (split; [done|]);
                apply lookup_union_is_Some; [by left|inversion Hd; subst; by right].
          - split.
            + intros (d & Hd & ?). inversion Hd; subst. by left.
            + intros [H|(d & Hd & _)]; [by eexists|discriminate]. }
        rewrite Hlhs, Hold_keys, Hnew_keys. split.
        -- intros [(u & d0 & Hd0 & Hu & Hx)|(u & d0 & Hd0 & Hu & Hx)];
             exists u, d0; (split; [done|split; [|done]]); apply ren_eq_new; tauto.
        -- intros (u & d0 & Hd0 & Hu & Hx). apply ren_eq_new in Hu as [Hu|Hu];
             [left|right]; by exists u, d0.
      * rewrite HA. split; intros (u & d0 & Hd0 & Hu & Hx); exists u, d0;
          (split; [done|split; [|done]]).
        -- by apply ren_eq_other.
        -- by apply (ren_eq_other old new).
  - (* untouched nodes *)
    intros z Hz Hgz Hz_pre. rewrite Hn'.
    assert (Hzo : z <> old) by (intros ->; exact (ren_neq_old old new (g old) Hne Hgz)).
    assert (Hzn : z <> new).
    { intros ->. apply Hne. symmetry. apply Hz_pre; [done|]. rewrite Hgold. apply ren_eq_new. by left. }
    rewrite !decide_False by done. apply HS; [done| |].
    + by apply (ren_eq_other old new).
    + intros u Hu Hgu. apply Hz_pre; [done|]. by apply ren_eq_other.
Qed.

Section RelabelFold.
Variable f : GeneId -> GeneId.
Hypothesis Hidem : forall n, f (f n) = f n.
Variable G0 : MGraph.
Hypothesis HG0 : mgraph_wf G0.

Lemma relabel_fold_inv (L P : list GeneId) (G : MGraph) :
  NoDup (P ++ L) -> relabel_inv G0 (relabeled_by f P) G ->
  exists R, fold_left (fun acc old => acc ≫= relabel_step (map_imap (fun n _ => Some (f n)) (gnode G0)) old)
              L (Some G) = Some R /\
            relabel_inv G0 (relabeled_by f (P ++ L)) R.
Proof.
  revert P G. induction L as [|old L IH]; intros P G Hnd Hinv.
  - exists G. by rewrite app_nil_r.
  - assert (HoP : old ∉ P).
    { apply NoDup_app in Hnd as (_ & Hd & _). intros Hin. apply (Hd old Hin). apply elem_of_cons. by left. }
    assert (Hnd' : NoDup ((P ++ [old]) ++ L)) by (by rewrite <- app_assoc).
    assert (Hin' : forall u, u ∈ P ++ [old] <-> u ∈ P \/ u = old).
    { intros u. rewrite elem_of_app, list_elem_of_singleton. tauto. }
    assert (Hstep : exists G', relabel_step (map_imap (fun n _ => Some (f n)) (gnode G0)) old G = Some G'
                               /\ relabel_inv G0 (relabeled_by f (P ++ [old])) G').
    { unfold relabel_step. rewrite map_lookup_imap.
      destruct (gnode G0 !! old) as [d0|] eqn:E0; cbn [mbind option_bind].
      - destruct (decide (f old = old)) as [Hfix|Hfix].
        + exists G. split; [done|]. apply (relabel_inv_ext G0 (relabeled_by f P)); [done| |done].
          intros u Hu. unfold relabeled_by. destruct (decide (u ∈ P)) as [HuP|HuP];
            destruct (decide (u ∈ P ++ [old])) as [HuP'|HuP']; try reflexivity.
          * exfalso. apply HuP'. apply Hin'. by left.
          * apply Hin' in HuP' as [? | ->]; [contradiction|done].
        + destruct (gnode G !! old) as [a|] eqn:Ea.
          2:{ exfalso. destruct Hinv as (_ & HN & _). assert (Hs : is_Some (gnode G !! old)).
              { apply HN. exists old. split; [rewrite E0; by eexists|]. unfold relabeled_by. by rewrite decide_False. }
              rewrite Ea in Hs. by destruct Hs. }
          eexists. split; [reflexivity|].
          apply (relabel_inv_ext G0 (fun u => ren old (f old) (relabeled_by f P u))); [done| |].
          * intros u Hu. unfold relabeled_by, ren. specialize (Hin' u).
            repeat case_decide; subst; try tauto; try congruence;
              exfalso; apply Hfix; match goal with H : f _ = old |- _ => rewrite <- H; apply Hidem end.
          * apply relabel_inv_step; [done|rewrite E0; by eexists| |done|done].
            intros u Hu. unfold relabeled_by. split.
            -- destruct (decide (u ∈ P)); [|done]. intros Hfu. exfalso. apply Hfix.
               by rewrite <- Hfu, Hidem.
            -- intros ->. by rewrite decide_False.
      - exists G. split; [done|]. apply (relabel_inv_ext G0 (relabeled_by f P)); [done| |done].
        intros u [du Hu]. assert (u <> old) by congruence. unfold relabeled_by.
        destruct (decide (u ∈ P)) as [HuP|HuP];
          destruct (decide (u ∈ P ++ [old])) as [HuP'|HuP']; try reflexivity.
        * exfalso. apply HuP'. apply Hin'. by left.
        * apply Hin' in HuP' as [?|?]; [contradiction|congruence]. }
    destruct Hstep as (G' & Hs & Hinv').
    destruct (IH (P ++ [old]) G' Hnd' Hinv') as (R & HR & HinvR).
    exists R. split.
    + simpl. rewrite Hs. exact HR.
    + by rewrite <- app_assoc in HinvR.
Qed.

Lemma relabel_nodes_inv (nodes : list GeneId) :
  NoDup nodes -> (forall u, is_Some (gnode G0 !! u) -> u ∈ nodes) ->
  exists R, relabel_nodes f nodes G0 = Some R /\ relabel_inv G0 f R.
Proof.
  intros Hnd Hcov.
  destruct (relabel_fold_inv nodes [] G0 Hnd) as (R & HR & Hinv).
  - apply (relabel_inv_ext G0 (fun u => u)); [done| |by apply relabel_inv_init].
    intros u _. unfold relabeled_by. rewrite decide_False; [done|]. intros H; inversion H.
  - exists R. split; [exact HR|]. apply (relabel_inv_ext G0 (relabeled_by f nodes)); [done| |done].
    intros u Hu. unfold relabeled_by. by rewrite decide_True by (by apply Hcov).
Qed.

End RelabelFold.

(** ** Cells 17 and 18 in sequence *)

Lemma relabel_fun_idem (O : UGraph) (n : GeneId) :
  ugraph_wf O ->
  relabel_fun (orth_mapping O) (relabel_fun (orth_mapping O) n) = relabel_fun (orth_mapping O) n.
Proof.
  intros HO. unfold relabel_fun at 2 3. destruct (orth_mapping O !! n) as [c|] eqn:E.
  - unfold relabel_fun. by rewrite (mapping_value_fixed O n c HO E).
  - unfold relabel_fun. by rewrite E.
Qed.

Lemma relabel_fun_preimage_unmapped (O : UGraph) (n u : GeneId) :
  ugraph_wf O -> orth_mapping O !! n = None ->
  relabel_fun (orth_mapping O) u = n -> u = n.
Proof.
  intros HO Hn. unfold relabel_fun. destruct (orth_mapping O !! u) as [c|] eqn:E; [|done].
  intros <-. rewrite (mapping_value_fixed O u c HO E) in Hn. discriminate.
Qed.

Lemma update_node_data_unmapped (O : UGraph) (n : GeneId) (d : Attrs) :
  orth_mapping O !! n = None -> is_Some (d !! "type") ->
  update_node_data (orth_mapping O) O n d = Some d.
Proof.
  intros Hn [ty Hty]. unfold update_node_data. rewrite Hty, Hn. by case_decide.
Qed.

Lemma node_data_step_ok (O : UGraph) (T : MGraph) :
  ugraph_wf O -> bel_typed T ->
  node_data_step (orth_mapping O) O T = Some (merged_data O T).
Proof.
  intros HO HT. unfold node_data_step. rewrite decide_True; [done|].
  intros n d Hd. destruct (HT n d Hd) as [ty Hty]. unfold update_node_data. rewrite Hty.
  case_decide; [|by eexists].
  destruct (orth_mapping O !! n) as [c|] eqn:Ec; [|by eexists].
  destruct (mapping_value_attr O n c HO Ec) as [oa ->]. by eexists.
Qed.

Lemma merged_data_lookup (O : UGraph) (T : MGraph) (n : GeneId) :
  gnode (merged_data O T) !! n = gnode T !! n ≫= update_node_data (orth_mapping O) O n.
Proof. unfold merged_data; simpl. apply map_lookup_imap. Qed.

Lemma merged_data_dom (O : UGraph) (T : MGraph) (n : GeneId) :
  ugraph_wf O -> bel_typed T ->
  is_Some (gnode (merged_data O T) !! n) <-> is_Some (gnode T !! n).
Proof.
  intros HO HT. rewrite merged_data_lookup.
  destruct (gnode T !! n) as [d|] eqn:Ed; cbn [mbind option_bind]; [|done].
  split; [intros _; by eexists|intros _].
  pose proof (node_data_step_ok O T HO HT) as Hs. unfold node_data_step in Hs.
  case_decide as Hall; [|discriminate]. exact (Hall n d Ed).
Qed.

Lemma merged_data_wf (O : UGraph) (T : MGraph) :
  ugraph_wf O -> bel_typed T -> mgraph_wf T -> mgraph_wf (merged_data O T).
Proof.
  intros HO HT HW k d Hk. destruct (HW k d Hk) as [H1 H2].
  split; by apply merged_data_dom.
Qed.

Lemma apply_mapping_inv (O : UGraph) (T : MGraph) (nodes : list GeneId) :
  ugraph_wf O -> mgraph_wf T -> bel_typed T -> NoDup nodes ->
  (forall u, is_Some (gnode T !! u) -> u ∈ nodes) ->
  exists R, apply_mapping O T nodes = Some R /\
            relabel_inv (merged_data O T) (relabel_fun (orth_mapping O)) R.
Proof.
  intros HO HW HT Hnd Hcov. unfold apply_mapping.
  rewrite (node_data_step_ok O T HO HT). cbn [mbind option_bind].
  apply relabel_nodes_inv.
  - intros n. by apply relabel_fun_idem.
  - by apply merged_data_wf.
  - done.
  - intros u Hu. apply Hcov. by apply (merged_data_dom O T u HO HT).
Qed.

Lemma inv_unmapped (O : UGraph) (T R : MGraph) :
  ugraph_wf O -> bel_typed T ->
  relabel_inv (merged_data O T) (relabel_fun (orth_mapping O)) R ->
  forall n, orth_mapping O !! n = None -> gnode R !! n = gnode T !! n.
Proof.
  intros HO HT (_ & HN & _ & _ & HS) n Hn.
  destruct (gnode T !! n) as [d|] eqn:Ed.
  - assert (Hm : gnode (merged_data O T) !! n = Some d).
    { rewrite merged_data_lookup, Ed. cbn [mbind option_bind].
      apply update_node_data_unmapped; [done|]. exact (HT n d Ed). }
    rewrite HS, Hm; [done|by eexists| |].
    + unfold relabel_fun. by rewrite Hn.
    + intros u _ Hu. by apply (relabel_fun_preimage_unmapped O n u HO Hn).
  - destruct (gnode R !! n) as [r|] eqn:Er; [|done]. exfalso.
    assert (Hs : is_Some (gnode R !! n)) by (by eexists).
    apply HN in Hs as (u & Hu & Hgu).
    apply (relabel_fun_preimage_unmapped O n u HO Hn) in Hgu. subst u.
    apply (merged_data_dom O T n HO HT) in Hu. rewrite Ed in Hu. by destruct Hu.
Qed.

Lemma inv_renamed_gone (O : UGraph) (T R : MGraph) (n c : GeneId) :
  ugraph_wf O ->
  relabel_inv (merged_data O T) (relabel_fun (orth_mapping O)) R ->
  orth_mapping O !! n = Some c -> c <> n -> gnode R !! n = None.
Proof.
  intros HO (_ & HN & _ & _ & _) Hn Hcn.
  destruct (gnode R !! n) as [r|] eqn:Er; [|done]. exfalso.
  assert (Hs : is_Some (gnode R !! n)) by (by eexists).
  apply HN in Hs as (u & _ & Hgu). unfold relabel_fun in Hgu.
  destruct (orth_mapping O !! u) as [c'|] eqn:Eu.
  - subst c'. rewrite (mapping_value_fixed O u n HO Eu) in Hn. congruence.
  - subst u. congruence.
Qed.

Lemma inv_carries_keys (O : UGraph) (T R : MGraph) (n c : GeneId) (d d' : Attrs) :
  relabel_inv (merged_data O T) (relabel_fun (orth_mapping O)) R ->
  orth_mapping O !! n = Some c -> gnode T !! n = Some d ->
  update_node_data (orth_mapping O) O n d = Some d' ->
  forall x, is_Some (d' !! x) -> exists dc, gnode R !! c = Some dc /\ is_Some (dc !! x).
Proof.
  intros (_ & _ & _ & HA & _) Hn Hd Hu x Hx.
  destruct (proj2 (HA c x)) as (dc & Hdc & Hxc); [|by exists dc].
  exists n, d'. split; [|split; [|done]].
  - rewrite merged_data_lookup, Hd. exact Hu.
  - unfold relabel_fun. by rewrite Hn.
Qed.

Lemma cover_of_map_Forall (T : MGraph) (nodes : list GeneId) :
  map_Forall (fun u _ => u ∈ nodes) (gnode T) ->
  forall u, is_Some (gnode T !! u) -> u ∈ nodes.
Proof. intros H u [d Hd]. exact (H u d Hd). Qed.

(** ** The values carried through the relabeling *)

Lemma gedge_add_edge4 (k : EdgeKey) (d : Attrs) (G : MGraph) :
  gedge (add_edge4 (k, d) G) = <[k := d ∪ default ∅ (gedge G !! k)]> (gedge G).
Proof. unfold add_edge4; simpl. by rewrite !gedge_ensure_node. Qed.

Lemma add_edges_from_val (es : list (EdgeKey * Attrs)) (G : MGraph) (K : EdgeKey)
  (e : Attrs) (x v : string) :
  gedge (add_edges_from es G) !! K = Some e -> e !! x = Some v ->
  (exists e0, gedge G !! K = Some e0 /\ e0 !! x = Some v) \/
  exists d, (K, d) ∈ es /\ d !! x = Some v.
Proof.
  revert G e. induction es as [|[k d] es IH]; intros G e He Hx; [left; by exists e|].
  change (add_edges_from ((k, d) :: es) G) with (add_edges_from es (add_edge4 (k, d) G)) in He.
  destruct (IH _ e He Hx) as [(e0 & He0 & Hx0)|(d' & Hin & Hx')].
  - rewrite gedge_add_edge4, lookup_insert in He0. case_decide as Hk.
    + subst k. injection He0 as <-. apply lookup_union_Some_raw in Hx0 as [Hx0|[_ Hx0]].
      * right. exists d. split; [apply elem_of_cons; by left|done].
      * left. destruct (gedge G !! K) as [e1|]; simpl in Hx0; [by exists e1|discriminate].
    + left. by exists e0.
  - right. exists d'. split; [apply elem_of_cons; by right|done].
Qed.

Lemma add_edges_from_key (es : list (EdgeKey * Attrs)) (G : MGraph) (K : EdgeKey) (x : string) :
  (exists e, gedge (add_edges_from es G) !! K = Some e /\ is_Some (e !! x)) <->
  (exists e0, gedge G !! K = Some e0 /\ is_Some (e0 !! x)) \/
  exists d, (K, d) ∈ es /\ is_Some (d !! x).
Proof.
  revert G. induction es as [|[k d] es IH]; intros G.
  - split; [by left|]. intros [?|(d & Hin & _)]; [done|inversion Hin].
  - change (add_edges_from ((k, d) :: es) G) with (add_edges_from es (add_edge4 (k, d) G)).
    rewrite IH, gedge_add_edge4, lookup_insert. split.
    + intros [(e0 & He0 & Hx0)|(d' & Hin & Hx')].
      * case_decide as Hk.
        -- subst k. injection He0 as <-. apply lookup_union_is_Some in Hx0 as [Hx0|Hx0].
           ++ right. exists d. split; [apply elem_of_cons; by left|done].
           ++ left. destruct (gedge G !! K) as [e1|]; simpl in Hx0;
                [by exists e1|rewrite lookup_empty in Hx0; by destruct Hx0].
        -- left. by exists e0.
      * right. exists d'. split; [apply elem_of_cons; by right|done].
    + intros [(e0 & He0 & Hx0)|(d' & Hin & Hx')].
      * left. case_decide as Hk.
        -- subst k. eexists. split; [reflexivity|]. apply lookup_union_is_Some. right.
           by rewrite He0.
        -- by exists e0.
      * apply elem_of_cons in Hin as [Heq|Hin].
        -- injection Heq as -> ->. left. rewrite decide_True by done. eexists.
           split; [reflexivity|]. apply lookup_union_is_Some. by left.
        -- right. by exists d'.
Qed.

Lemma relabel_vals_init (G0 : MGraph) : relabel_vals G0 (fun u => u) G0.
Proof.
  split; [|split; [|split]].
  - intros z d x v Hd Hx. by exists z, d.
  - intros z u _ <- _. done.
  - intros z w k e x v He Hx. by exists z, w, e.
  - intros z w k x. split; [intros (e & He & Hx); by exists z, w, e|].
    intros (u & u' & e0 & He0 & <- & <- & Hx). by exists e0.
Qed.

Lemma relabel_vals_ext (G0 : MGraph) (g g' : GeneId -> GeneId) (G : MGraph) :
  mgraph_wf G0 -> (forall u, is_Some (gnode G0 !! u) -> g u = g' u) ->
  relabel_vals G0 g G -> relabel_vals G0 g' G.
Proof.
  intros HG0 Hg (HV & HU & HEV & HEK). split; [|split; [|split]].
  - intros z d x v Hd Hx. destruct (HV z d x v Hd Hx) as (u & d0 & Hd0 & Hu & Hx0).
    exists u, d0. split; [done|]. split; [|done]. rewrite <- Hg by (by eexists). done.
  - intros z u Hu Hgu Huniq. apply HU; [done|by rewrite Hg|].
    intros u' Hu' Hgu'. apply Huniq; [done|by rewrite <- Hg].
  - intros z w k e x v He Hx. destruct (HEV z w k e x v He Hx) as (u & u' & e0 & He0 & Hu & Hu' & Hx0).
    destruct (HG0 _ _ He0) as [H1 H2]. simpl in H1, H2.
    exists u, u', e0. rewrite <- !Hg by done. done.
  - intros z w k x. rewrite HEK. split; intros (u & u' & e0 & He0 & Hu & Hu' & Hx0);
      destruct (HG0 _ _ He0) as [H1 H2]; simpl in H1, H2; exists u, u', e0.
    + rewrite <- !Hg by done. done.
    + rewrite !Hg by done. done.
Qed.

Lemma relabel_vals_step (G0 : MGraph) (g : GeneId -> GeneId) (G : MGraph)
  (old new : GeneId) (a : Attrs) :
  relabel_inv G0 g G -> relabel_vals G0 g G -> is_Some (gnode G0 !! old) ->
  (forall u, is_Some (gnode G0 !! u) -> g u = old <-> u = old) ->
  new <> old -> gnode G !! old = Some a ->
  relabel_vals G0 (fun u => ren old new (g u))
    (add_edges_from (new_edges old new (add_node new a G)) (remove_node old (add_node new a G))).
Proof.
  intros Hinv (HV & HU & HEV & HEK) Hold Hpre Hne Ha.
  pose proof Hinv as (Hwf & HN & _ & _ & _).
  pose proof (relabel_step_shape old new a G Hwf Ha Hne) as Hsh. cbn zeta in Hsh.
  set (G1 := add_node new a G) in Hsh |- *.
  set (G' := add_edges_from _ _) in Hsh |- *. destruct Hsh as [Hn' _].
  assert (Hgold : g old = old) by (apply Hpre; done).
  assert (He1 : gedge G1 = gedge G) by reflexivity.
  assert (Hren_id : forall y, y <> old -> ren old new y = y).
  { intros y Hy. unfold ren. by rewrite decide_False. }
  assert (HG2 : forall K e, gedge (remove_node old G1) !! K = Some e <->
                  gedge G !! K = Some e /\ K.1.1 <> old /\ K.1.2 <> old).
  { intros K e. unfold remove_node; simpl. rewrite map_lookup_filter_Some. simpl. tauto. }
  split; [|split; [|split]].
  - (* node values *)
    intros z d x v Hd Hx. rewrite Hn' in Hd.
    destruct (decide (z = old)) as [->|Hzo]; [discriminate|].
    destruct (decide (z = new)) as [->|Hzn].
    + injection Hd as <-.
      assert (Hfrom_a : a !! x = Some v ->
                exists u d0, gnode G0 !! u = Some d0 /\ ren old new (g u) = new /\ d0 !! x = Some v).
      { intros Hax. destruct (HV old a x v Ha Hax) as (u & d0 & Hd0 & Hu & Hx0).
        exists u, d0. split; [done|]. split; [|done]. rewrite Hu. apply ren_eq_new. by left. }
      destruct (gnode G !! new) as [dn|] eqn:En; [|by apply Hfrom_a].
      unfold dict_update in Hx. apply lookup_union_Some_raw in Hx as [Hax|[_ Hnx]]; [by apply Hfrom_a|].
      destruct (HV new dn x v En Hnx) as (u & d0 & Hd0 & Hu & Hx0).
      exists u, d0. split; [done|]. split; [|done]. rewrite Hu. apply ren_eq_new. by right.
    + destruct (HV z d x v Hd Hx) as (u & d0 & Hd0 & Hu & Hx0).
      exists u, d0. split; [done|]. split; [|done]. rewrite Hu. by apply Hren_id.
  - (* single preimage *)
    intros z u Hu Hgu Huniq. rewrite Hn'.
    destruct (decide (z = old)) as [->|Hzo]; [exfalso; exact (ren_neq_old old new (g u) Hne Hgu)|].
    destruct (decide (z = new)) as [->|Hzn].
    + assert (Hu_old : old = u).
      { apply Huniq; [done|]. rewrite Hgold. apply ren_eq_new. by left. }
      subst u.
      assert (Hnone : gnode G !! new = None).
      { destruct (gnode G !! new) as [dn|] eqn:En; [|done]. exfalso.
        destruct (proj1 (HN new) ltac:(by eexists)) as (u' & Hu' & Hgu').
        assert (old = u'); [|subst u'; congruence].
        symmetry. apply Huniq; [done|]. rewrite Hgu'. apply ren_eq_new. by right. }
      rewrite Hnone, <- Ha. apply HU; [done|done|]. intros u' Hu' Hgu'. by apply Hpre.
    + rewrite (HU z u Hu).
      * done.
      * by apply (ren_eq_other old new).
      * intros u' Hu' Hgu'. apply Huniq; [done|]. by apply ren_eq_other.
  - (* edge values *)
    intros z w k e x v He Hx. unfold G' in He. apply (add_edges_from_val _ _ _ e x v He) in Hx
      as [(e0 & He0 & Hx0)|(d & Hin & Hdx)].
    + apply HG2 in He0 as (He0 & Hz & Hw). simpl in Hz, Hw.
      destruct (HEV z w k e0 x v He0 Hx0) as (u & u' & e1 & He1' & Hu & Hu' & Hx1).
      exists u, u', e1. rewrite Hu, Hu', !Hren_id by done. done.
    + apply elem_of_new_edges in Hin as (x0 & y0 & k0 & Hl & _ & Heq).
      rewrite He1 in Hl. injection Heq as -> -> ->.
      destruct (HEV x0 y0 k0 d x v Hl Hdx) as (u & u' & e1 & He1' & Hu & Hu' & Hx1).
      exists u, u', e1. rewrite Hu, Hu'. done.
  - (* edge attribute keys *)
    intros z w k x. unfold G'. rewrite add_edges_from_key. split.
    + intros [(e0 & He0 & Hx0)|(d & Hin & Hdx)].
      * apply HG2 in He0 as (He0 & Hz & Hw). simpl in Hz, Hw.
        destruct (proj1 (HEK z w k x) ltac:(by exists e0)) as (u & u' & e1 & He1' & Hu & Hu' & Hx1).
        exists u, u', e1. rewrite Hu, Hu', !Hren_id by done. done.
      * apply elem_of_new_edges in Hin as (x0 & y0 & k0 & Hl & _ & Heq).
        rewrite He1 in Hl. injection Heq as -> -> ->.
        destruct (proj1 (HEK x0 y0 k0 x) ltac:(by exists d)) as (u & u' & e1 & He1' & Hu & Hu' & Hx1).
        exists u, u', e1. rewrite Hu, Hu'. done.
    + intros (u & u' & e0 & He0 & Hu & Hu' & Hx0).
      destruct (proj2 (HEK (g u) (g u') k x) ltac:(by exists u, u', e0)) as (e1 & He1' & Hx1).
      destruct (decide (g u = old \/ g u' = old)) as [Ho|Ho].
      * right. exists e1. split; [|done]. apply elem_of_new_edges.
        exists (g u), (g u'), k. rewrite He1. subst z w. auto.
      * left. exists e1. split; [|done]. apply HG2. simpl.
        rewrite <- Hu, <- Hu', !Hren_id by tauto. split; [done|tauto].
Qed.

Section RelabelFoldVals.
Variable f : GeneId -> GeneId.
Hypothesis Hidem : forall n, f (f n) = f n.
Variable G0 : MGraph.
Hypothesis HG0 : mgraph_wf G0.

Lemma relabel_fold_vals (L P : list GeneId) (G : MGraph) :
  NoDup (P ++ L) -> relabel_inv G0 (relabeled_by f P) G -> relabel_vals G0 (relabeled_by f P) G ->
  exists R, fold_left (fun acc old => acc ≫= relabel_step (map_imap (fun n _ => Some (f n)) (gnode G0)) old)
              L (Some G) = Some R /\
            relabel_inv G0 (relabeled_by f (P ++ L)) R /\
            relabel_vals G0 (relabeled_by f (P ++ L)) R.
Proof.
  revert P G. induction L as [|old L IH]; intros P G Hnd Hinv Hvals.
  - exists G. by rewrite app_nil_r.
  - assert (HoP : old ∉ P).
    { apply NoDup_app in Hnd as (_ & Hd & _). intros Hin. apply (Hd old Hin). apply elem_of_cons. by left. }
    assert (Hnd' : NoDup ((P ++ [old]) ++ L)) by (by rewrite <- app_assoc).
    assert (Hin' : forall u, u ∈ P ++ [old] <-> u ∈ P \/ u = old).
    { intros u. rewrite elem_of_app, list_elem_of_singleton. tauto. }
    assert (Hsame : forall u, is_Some (gnode G0 !! u) -> (u = old -> f old = old) ->
                      relabeled_by f P u = relabeled_by f (P ++ [old]) u).
    { intros u _ Hfix. unfold relabeled_by. destruct (decide (u ∈ P)) as [HuP|HuP];
        destruct (decide (u ∈ P ++ [old])) as [HuP'|HuP']; try reflexivity.
      - exfalso. apply HuP'. apply Hin'. by left.
      - apply Hin' in HuP' as [? | ->]; [contradiction|]. by rewrite Hfix. }
    assert (Hstep : exists G', relabel_step (map_imap (fun n _ => Some (f n)) (gnode G0)) old G = Some G'
                               /\ relabel_inv G0 (relabeled_by f (P ++ [old])) G'
                               /\ relabel_vals G0 (relabeled_by f (P ++ [old])) G').
    { unfold relabel_step. rewrite map_lookup_imap.
      destruct (gnode G0 !! old) as [d0|] eqn:E0; cbn [mbind option_bind].
      - destruct (decide (f old = old)) as [Hfix|Hfix].
        + exists G. split; [done|]. split.
          * apply (relabel_inv_ext G0 (relabeled_by f P)); [done| |done].
            intros u Hu. apply Hsame; [done|]. intros _. exact Hfix.
          * apply (relabel_vals_ext G0 (relabeled_by f P)); [done| |done].
            intros u Hu. apply Hsame; [done|]. intros _. exact Hfix.
        + destruct (gnode G !! old) as [a|] eqn:Ea.
          2:{ exfalso. destruct Hinv as (_ & HN & _). assert (Hs : is_Some (gnode G !! old)).
              { apply HN. exists old. split; [rewrite E0; by eexists|]. unfold relabeled_by. by rewrite decide_False. }
              rewrite Ea in Hs. by destruct Hs. }
          eexists. split; [reflexivity|].
          assert (Hg : forall u, is_Some (gnode G0 !! u) ->
                    ren old (f old) (relabeled_by f P u) = relabeled_by f (P ++ [old]) u).
          { intros u Hu. unfold relabeled_by, ren. specialize (Hin' u).
            repeat case_decide; subst; try tauto; try congruence;
              exfalso; apply Hfix; match goal with H : f _ = old |- _ => rewrite <- H; apply Hidem end. }
          assert (Hpre : forall u, is_Some (gnode G0 !! u) -> relabeled_by f P u = old <-> u = old).
          { intros u Hu. unfold relabeled_by. split.
            - destruct (decide (u ∈ P)); [|done]. intros Hfu. exfalso. apply Hfix.
              by rewrite <- Hfu, Hidem.
            - intros ->. by rewrite decide_False. }
          split.
          * apply (relabel_inv_ext G0 (fun u => ren old (f old) (relabeled_by f P u))); [done|exact Hg|].
            apply relabel_inv_step; [done|rewrite E0; by eexists|exact Hpre|done|done].
          * apply (relabel_vals_ext G0 (fun u => ren old (f old) (relabeled_by f P u))); [done|exact Hg|].
            apply relabel_vals_step; [done|done|rewrite E0; by eexists|exact Hpre|done|done].
      - assert (Hg : forall u, is_Some (gnode G0 !! u) -> relabeled_by f P u = relabeled_by f (P ++ [old]) u).
        { intros u [du Hu]. apply Hsame; [by eexists|]. intros ->. congruence. }
        exists G. split; [done|]. split.
        + by apply (relabel_inv_ext G0 (relabeled_by f P)).
        + by apply (relabel_vals_ext G0 (relabeled_by f P)). }
    destruct Hstep as (G' & Hs & Hinv' & Hvals').
    destruct (IH (P ++ [old]) G' Hnd' Hinv' Hvals') as (R & HR & HinvR & HvalsR).
    exists R. split; [simpl; rewrite Hs; exact HR|]. rewrite <- app_assoc in HinvR, HvalsR. done.
Qed.

Lemma relabel_nodes_vals (nodes : list GeneId) :
  NoDup nodes -> (forall u, is_Some (gnode G0 !! u) -> u ∈ nodes) ->
  exists R, relabel_nodes f nodes G0 = Some R /\ relabel_vals G0 f R.
Proof.
  intros Hnd Hcov.
  assert (Hid : forall u, is_Some (gnode G0 !! u) -> u = relabeled_by f [] u).
  { intros u _. unfold relabeled_by. rewrite decide_False; [done|]. intros H; inversion H. }
  destruct (relabel_fold_vals nodes [] G0 Hnd) as (R & HR & _ & Hvals).
  - apply (relabel_inv_ext G0 (fun u => u)); [done|exact Hid|by apply relabel_inv_init].
  - apply (relabel_vals_ext G0 (fun u => u)); [done|exact Hid|apply relabel_vals_init].
  - exists R. split; [exact HR|]. apply (relabel_vals_ext G0 (relabeled_by f nodes)); [done| |done].
    intros u Hu. unfold relabeled_by. by rewrite decide_True by (by apply Hcov).
Qed.

End RelabelFoldVals.

Lemma apply_mapping_vals (O : UGraph) (T : MGraph) (nodes : list GeneId) :
  ugraph_wf O -> mgraph_wf T -> bel_typed T -> NoDup nodes ->
  (forall u, is_Some (gnode T !! u) -> u ∈ nodes) ->
  exists R, apply_mapping O T nodes = Some R /\
            relabel_inv (merged_data O T) (relabel_fun (orth_mapping O)) R /\
            relabel_vals (merged_data O T) (relabel_fun (orth_mapping O)) R.
Proof.
  intros HO HW HT Hnd Hcov.
  destruct (apply_mapping_inv O T nodes HO HW HT Hnd Hcov) as (R & HR & Hinv).
  destruct (relabel_nodes_vals (relabel_fun (orth_mapping O))
              (fun n => relabel_fun_idem O n HO)
              (merged_data O T) (merged_data_wf O T HO HT HW) nodes Hnd) as (R' & HR' & Hvals).
  - intros u Hu. apply Hcov. by apply (merged_data_dom O T u HO HT).
  - exists R. split; [exact HR|split; [exact Hinv|]].
    unfold apply_mapping in HR. rewrite (node_data_step_ok O T HO HT) in HR.
    cbn [mbind option_bind] in HR. rewrite HR in HR'. injection HR' as <-. exact Hvals.
Qed.

(** ** C2 *)

(** C2 (as stated, refuted): the human miRNA [MIR21] has type ["miRNA"],
    outside [('Gene', 'RNA', 'Protein')], and is a key of the mapping: it
    is renamed to [Mir21] all the same, and keeps its own dictionary (the
    type test of cell 17 only gates the data merge). *)
Lemma mir21_renamed_despite_type :
  gnode corpus2 !! MIR21_HGNC = Some (type_attrs "miRNA") /\
  ("miRNA" ∉ allowed_types) /\
  orth_mapping mir21_orthology !! MIR21_HGNC = Some Mir21_MGI /\
  apply_mapping mir21_orthology corpus2 [MIR21_HGNC] =
  Some {| gnode := {[Mir21_MGI := type_attrs "miRNA"]}; gedge := ∅ |}.
Proof.
  split; [reflexivity|]. split; [apply (bool_decide_eq_true_1 _); vm_compute; reflexivity|].
  split; [reflexivity|]. apply result_is_sound. vm_compute. reflexivity.
Qed.

(** C2 (amended): with an orthology graph and a PyBEL graph that are well
    formed (every node has a ["type"], every edge joins two nodes) and a
    processing sequence without repetition that covers the nodes, the
    relabeling succeeds and
    - every node [n] ends up under [relabel_fun mapping n], whatever its type;
    - a key [n] with [mapping[n] <> n] is no longer a node;
    - a node that is not a key keeps its identity and its dictionary;
    - the new node [mapping[n]] carries every attribute key of [n]'s own
      dictionary when the type is not in the allowed set, and every key of
      the merged dictionary [data.update(orthology_undirected.node[c])] when
      it is;
    - when [n] is the only node of the input that the relabel function sends
      to [c = mapping[n]], the node [c] of the result holds exactly the
      merged dictionary when the type is allowed, and exactly [n]'s own
      dictionary when it is not. *)
Theorem renaming_gated_by_mapping_only (O : UGraph) (T : MGraph) (nodes : list GeneId) :
  ugraph_wf O -> mgraph_wf T -> bel_typed T -> NoDup nodes ->
  (forall u, is_Some (gnode T !! u) -> u ∈ nodes) ->
  exists R, apply_mapping O T nodes = Some R /\
    (forall n, is_Some (gnode T !! n) ->
       is_Some (gnode R !! relabel_fun (orth_mapping O) n)) /\
    (forall n c, orth_mapping O !! n = Some c -> c <> n -> gnode R !! n = None) /\
    (forall n, orth_mapping O !! n = None -> gnode R !! n = gnode T !! n) /\
    (forall n c d ty, orth_mapping O !! n = Some c -> gnode T !! n = Some d ->
       d !! "type" = Some ty -> ty ∉ allowed_types ->
       forall x, is_Some (d !! x) -> exists dc, gnode R !! c = Some dc /\ is_Some (dc !! x)) /\
    (forall n c d ty oa, orth_mapping O !! n = Some c -> gnode T !! n = Some d ->
       d !! "type" = Some ty -> ty ∈ allowed_types -> uattr O !! c = Some oa ->
       forall x, is_Some (dict_update d oa !! x) ->
       exists dc, gnode R !! c = Some dc /\ is_Some (dc !! x)) /\
    (forall n c d ty, orth_mapping O !! n = Some c -> gnode T !! n = Some d ->
       d !! "type" = Some ty -> ty ∉ allowed_types ->
       (forall u, is_Some (gnode T !! u) -> relabel_fun (orth_mapping O) u = c -> u = n) ->
       gnode R !! c = Some d) /\
    (forall n c d ty oa, orth_mapping O !! n = Some c -> gnode T !! n = Some d ->
       d !! "type" = Some ty -> ty ∈ allowed_types -> uattr O !! c = Some oa ->
       (forall u, is_Some (gnode T !! u) -> relabel_fun (orth_mapping O) u = c -> u = n) ->
       gnode R !! c = Some (dict_update d oa)).
Proof.
  intros HO HW HT Hnd Hcov.
  destruct (apply_mapping_vals O T nodes HO HW HT Hnd Hcov) as (R & HR & Hinv & Hvals).
  assert (Hsole : forall n c d d', orth_mapping O !! n = Some c -> gnode T !! n = Some d ->
            update_node_data (orth_mapping O) O n d = Some d' ->
            (forall u, is_Some (gnode T !! u) -> relabel_fun (orth_mapping O) u = c -> u = n) ->
            gnode R !! c = Some d').
  { intros n c d d' Hn Hd Hu Huniq. destruct Hvals as (_ & HV2 & _).
    assert (Hm : gnode (merged_data O T) !! n = Some d').
    { rewrite merged_data_lookup, Hd. exact Hu. }
    rewrite (HV2 c n); [exact Hm|rewrite Hm; by eexists|unfold relabel_fun; by rewrite Hn|].
    intros u' Hu' Hgu'. apply Huniq; [by apply (merged_data_dom O T u' HO HT)|done]. }
  exists R. split; [done|]. split; [|split; [|split; [|split; [|split; [|split]]]]].
  - intros n Hn. destruct Hinv as (_ & HN & _). apply HN. exists n.
    split; [by apply merged_data_dom|done].
  - intros n c Hn Hcn. by apply (inv_renamed_gone O T R n c).
  - by apply (inv_unmapped O T R).
  - intros n c d ty Hn Hd Hty Hno. apply (inv_carries_keys O T R n c d d Hinv Hn Hd).
    unfold update_node_data. rewrite Hty. by rewrite decide_False.
  - intros n c d ty oa Hn Hd Hty Hyes Hoa. apply (inv_carries_keys O T R n c d _ Hinv Hn Hd).
    unfold update_node_data. rewrite Hty, decide_True, Hn, Hoa by done. reflexivity.
  - intros n c d ty Hn Hd Hty Hno. apply (Hsole n c d d Hn Hd).
    unfold update_node_data. rewrite Hty. by rewrite decide_False.
  - intros n c d ty oa Hn Hd Hty Hyes Hoa. apply (Hsole n c d _ Hn Hd).
    unfold update_node_data. rewrite Hty, decide_True, Hn, Hoa by done. reflexivity.
Qed.

Lemma renaming_gated_by_mapping_only_witness :
  ugraph_wf tp53_orthology /\ mgraph_wf corpus1 /\ bel_typed corpus1 /\
  exists R, apply_mapping tp53_orthology corpus1 [Trp53_MGI; MDM2_HGNC; TP53_HGNC] = Some R /\
            gnode R !! TP53_HGNC = None /\
            gnode R !! Trp53_MGI = Some (dict_update (type_attrs "Gene") (bel_node_attrs Trp53_MGI)).
Proof.
  split; [decide_by_eval|]. split; [decide_by_eval|]. split; [decide_by_eval|].
  destruct (renaming_gated_by_mapping_only tp53_orthology corpus1 [Trp53_MGI; MDM2_HGNC; TP53_HGNC]
              ltac:(decide_by_eval) ltac:(decide_by_eval) ltac:(decide_by_eval)
              ltac:(decide_by_eval) ltac:(apply cover_of_map_Forall; decide_by_eval))
    as (R & HR & _ & Hgone & _ & _ & _ & _ & Hmerged).
  exists R. split; [exact HR|]. split.
  - apply (Hgone TP53_HGNC Trp53_MGI); [reflexivity|discriminate].
  - apply (Hmerged TP53_HGNC Trp53_MGI (type_attrs "Gene") "Gene" (bel_node_attrs Trp53_MGI));
      [vm_compute; reflexivity|vm_compute; reflexivity|vm_compute; reflexivity|decide_by_eval
      |vm_compute; reflexivity|].
    intros u [du Hdu] Hgu.
    assert (Hall : map_Forall (fun u _ => u = TP53_HGNC \/ u = MDM2_HGNC) (gnode corpus1))
      by decide_by_eval.
    destruct (Hall u du Hdu) as [->| ->]; [reflexivity|].
    vm_compute in Hgu. discriminate.
Defined.

(** ** C3 *)


(** The fused edge is the [dict.update] of the two data dictionaries: with
    [{relation: increases, citation: X}] processed first and
    [{relation: decreases}] second, it is
    [{relation: decreases, citation: X}]. *)
Example corpus4_edge_data_merged :
  apply_mapping tp53_orthology corpus4 [Trp53_MGI; MDM2_HGNC; TP53_HGNC; Tp53_RGD] =
  Some {| gnode := {[Trp53_MGI := bel_node_attrs Trp53_MGI; MDM2_HGNC := type_attrs "Protein"]};
          gedge := {[(Trp53_MGI, MDM2_HGNC, 0%Z) := cited_attrs "decreases" "X"]} |}.
Proof. apply result_is_sound. vm_compute. reflexivity. Qed.



(** ** C9 *)

(** C9: under the assumptions of C2 (in particular every node has a
    ["type"], which [data['type']] of cell 17 reads for every node, mapped or
    not), the relabeling raises no error and every identifier that is not a
    key of the mapping has the same entry in the result as in the input: its
    identity and dictionary are unchanged, and it is absent from the result
    exactly when it is absent from the input. *)
Theorem unmapped_nodes_untouched (O : UGraph) (T : MGraph) (nodes : list GeneId) :
  ugraph_wf O -> mgraph_wf T -> bel_typed T -> NoDup nodes ->
  (forall u, is_Some (gnode T !! u) -> u ∈ nodes) ->
  exists R, apply_mapping O T nodes = Some R /\
            forall n, orth_mapping O !! n = None -> gnode R !! n = gnode T !! n.
Proof.
  intros HO HW HT Hnd Hcov.
  destruct (apply_mapping_inv O T nodes HO HW HT Hnd Hcov) as (R & HR & Hinv).
  exists R. split; [done|]. by apply (inv_unmapped O T R).
Qed.

Lemma unmapped_nodes_untouched_witness :
  ugraph_wf tp53_orthology /\ mgraph_wf corpus1 /\ bel_typed corpus1 /\
  exists R, apply_mapping tp53_orthology corpus1 [Trp53_MGI; MDM2_HGNC; TP53_HGNC] = Some R /\
            gnode R !! MDM2_HGNC = Some (type_attrs "Protein").
Proof.
  split; [decide_by_eval|]. split; [decide_by_eval|]. split; [decide_by_eval|].
  destruct (unmapped_nodes_untouched tp53_orthology corpus1 [Trp53_MGI; MDM2_HGNC; TP53_HGNC]
              ltac:(decide_by_eval) ltac:(decide_by_eval) ltac:(decide_by_eval)
              ltac:(decide_by_eval) ltac:(apply cover_of_map_Forall; decide_by_eval))
    as (R & HR & Hun).
  exists R. split; [exact HR|]. rewrite (Hun MDM2_HGNC ltac:(reflexivity)). reflexivity.
Defined.

(* ================================================================== *)
(** * Further properties of the notebook cells *)

(** ** Auxiliary lemmas *)

Lemma elem_of_keys_list {K A} `{Countable K} (m : gmap K A) (k : K) :
  k ∈ (map_to_list m).*1 <-> is_Some (m !! k).
Proof.
  rewrite list_elem_of_fmap. split.
  - intros ([k' a] & -> & Hk). apply elem_of_map_to_list in Hk. by exists a.
  - intros [a Ha]. exists (k, a). split; [done|]. by apply elem_of_map_to_list.
Qed.

Lemma size_le_of_image {K K' A B} `{Countable K} `{Countable K'}
  (m1 : gmap K A) (m2 : gmap K' B) (h : K' -> K) :
  (forall k, is_Some (m1 !! k) -> exists k', is_Some (m2 !! k') /\ h k' = k) ->
  size m1 <= size m2.
Proof.
  intros Him. rewrite <- !length_map_to_list.
  rewrite <- (length_fmap fst (map_to_list m1)), <- (length_fmap fst (map_to_list m2)).
  rewrite <- (length_fmap h ((map_to_list m2).*1)).
  apply submseteq_length, NoDup_submseteq; [apply NoDup_fst_map_to_list|].
  intros k Hk. apply elem_of_keys_list, Him in Hk as (k' & Hk' & <-).
  apply list_elem_of_fmap. exists k'. split; [done|]. by apply elem_of_keys_list.
Qed.

Lemma length_filter_and {A} (P Q : A -> Prop) `{forall x, Decision (P x)}
  `{forall x, Decision (Q x)} (l : list A) :
  length (filter (fun x => P x /\ Q x) l) <= length (filter P l).
Proof.
  induction l as [|x l IH]; [done|]. rewrite !filter_cons.
  repeat case_decide; simpl; try lia; tauto.
Qed.

(** *** Cell 10 *)

Lemma to_undirected_neighbors (G : MGraph) (a b : GeneId) :
  b ∈ neighbors (to_undirected G) a <->
  exists k, is_Some (gedge G !! (a, b, k)) \/ is_Some (gedge G !! (b, a, k)).
Proof.
  rewrite elem_of_neighbors. unfold to_undirected; cbn [uedges].
  rewrite !elem_of_map_iff. split.
  - intros [([[[u v] k] d] & Heq & Hk)|([[[u v] k] d] & Heq & Hk)];
      apply elem_of_map_to_list in Hk; simpl in Heq; injection Heq as -> ->;
      exists k; [left|right]; by eexists.
  - intros (k & [[d Hd]|[d Hd]]); [left; exists ((a, b, k), d)|right; exists ((b, a, k), d)];
      (split; [reflexivity|by apply elem_of_map_to_list]).
Qed.

Lemma to_undirected_wf (G : MGraph) : mgraph_wf G -> ugraph_wf (to_undirected G).
Proof.
  intros HW. unfold ugraph_wf, to_undirected; cbn [unodes uedges uattr].
  split; [apply NoDup_fst_map_to_list|]. split; [|split].
  - apply Forall_forall. intros e He. apply elem_of_map_iff in He as ([k d] & -> & Hk).
    apply elem_of_map_to_list in Hk. destruct (HW k d Hk) as [H1 H2]. simpl.
    rewrite !elem_of_keys_list. done.
  - apply Forall_forall. intros n Hn. by apply elem_of_keys_list.
  - intros n d Hd. apply elem_of_keys_list. by exists d.
Qed.

(** *** Cells 15 and 19 *)

Lemma count_gene_None (l : list (GeneId * Attrs)) : fold_left count_gene l None = None.
Proof. induction l; simpl; done. Qed.

Lemma count_gene_fold (l : list (GeneId * Attrs)) (c : gmap string nat) :
  Forall (fun nd => is_Some (nd.2 !! "type")) l ->
  (forall ns, c !! ns <> Some 0) ->
  exists c', fold_left count_gene l (Some c) = Some c' /\
    (forall ns, c' !! ns <> Some 0) /\
    forall ns, default 0 (c' !! ns) =
      default 0 (c !! ns) +
      length (filter (fun nd : GeneId * Attrs =>
                        nd.2 !! "type" = Some "Gene" /\ node_namespace nd.1 = ns) l).
Proof.
  revert c. induction l as [|[n d] l IH]; intros c Hl Hc.
  - exists c. split; [done|]. split; [done|]. intros ns. simpl. lia.
  - apply Forall_cons in Hl as [[ty Hty] Hl]. simpl in Hty.
    cbn [fold_left]. unfold count_gene at 2. cbn [mbind option_bind]. simpl. rewrite Hty.
    case_decide as Hg.
    + destruct (IH (counter_add c (node_namespace n)) Hl) as (c' & Hf & H0 & Hcnt).
      { intros ns. unfold counter_add. rewrite lookup_insert. case_decide; [congruence|apply Hc]. }
      exists c'. split; [exact Hf|]. split; [exact H0|]. intros ns. rewrite Hcnt.
      rewrite filter_cons. unfold counter_add. rewrite lookup_insert. simpl.
      subst ty. repeat case_decide; simpl; subst; try tauto; lia.
    + destruct (IH c Hl Hc) as (c' & Hf & H0 & Hcnt).
      exists c'. split; [exact Hf|]. split; [exact H0|]. intros ns. rewrite Hcnt.
      rewrite filter_cons. simpl. case_decide as Hp; [|done]. exfalso. destruct Hp as [Hp _].
      rewrite Hty in Hp. congruence.
Qed.

Lemma count_gene_fold_fail (l : list (GeneId * Attrs)) (c : gmap string nat) :
  ~ Forall (fun nd => is_Some (nd.2 !! "type")) l -> fold_left count_gene l (Some c) = None.
Proof.
  revert c. induction l as [|[n d] l IH]; intros c Hl; [exfalso; by apply Hl|].
  cbn [fold_left]. unfold count_gene at 2. cbn [mbind option_bind]. simpl.
  destruct (d !! "type") as [ty|] eqn:Hty; [|apply count_gene_None].
  apply IH. intros Hf. apply Hl. constructor; [simpl; by rewrite Hty|done].
Qed.

Lemma bel_typed_list (G : MGraph) :
  bel_typed G <-> Forall (fun nd : GeneId * Attrs => is_Some (nd.2 !! "type")) (map_to_list (gnode G)).
Proof.
  unfold bel_typed. rewrite map_Forall_to_list. apply Forall_iff. by intros [n d].
Qed.

Lemma gene_counter_spec (G : MGraph) :
  bel_typed G ->
  exists cnt, gene_namespace_counter G = Some cnt /\
    forall ns, default 0 (cnt !! ns) = gene_count G ns /\ cnt !! ns <> Some 0.
Proof.
  intros HT. apply bel_typed_list in HT.
  destruct (count_gene_fold _ ∅ HT) as (c' & Hf & H0 & Hcnt); [intros ns; by rewrite lookup_empty|].
  exists c'. split; [exact Hf|]. intros ns. split; [|apply H0]. rewrite Hcnt, lookup_empty. done.
Qed.


(** *** Cells 17 and 18 *)

Lemma update_node_data_keeps (mp : gmap GeneId GeneId) (O : UGraph) (n : GeneId)
  (d d' : Attrs) (x : string) :
  update_node_data mp O n d = Some d' -> is_Some (d !! x) -> is_Some (d' !! x).
Proof.
  unfold update_node_data. intros Hu Hx.
  destruct (d !! "type"); [|discriminate]. case_decide; [|congruence].
  destruct (mp !! n) as [c|]; [|congruence].
  destruct (uattr O !! c) as [oa|]; [|discriminate]. injection Hu as <-.
  unfold dict_update. apply lookup_union_is_Some. by right.
Qed.

Lemma mapping_value_mgi (G : UGraph) (k r : GeneId) :
  ugraph_wf G -> orth_mapping G !! k = Some r -> node_namespace r = "MGI".
Proof.
  intros HG Hk. apply orth_mapping_Some in Hk as (i & c & _ & _ & Hr); [|done].
  by apply last_mgi_elem in Hr as [_ ?].
Qed.

Lemma inv_typed (O : UGraph) (T R : MGraph) :
  bel_typed T ->
  relabel_inv (merged_data O T) (relabel_fun (orth_mapping O)) R -> bel_typed R.
Proof.
  intros HT (_ & HN & _ & HA & _) z dz Hz.
  destruct (proj1 (HN z) ltac:(by eexists)) as (u & [du Hu] & Hgu).
  destruct (proj2 (HA z "type")) as (d & Hd & Hx).
  - exists u, du. split; [done|]. split; [done|].
    rewrite merged_data_lookup in Hu.
    destruct (gnode T !! u) as [d0|] eqn:E0; [|discriminate]. cbn [mbind option_bind] in Hu.
    eapply update_node_data_keeps; [exact Hu|]. exact (HT u d0 E0).
  - rewrite Hz in Hd. by injection Hd as ->.
Qed.

Lemma inv_fixed (O : UGraph) (T R : MGraph) :
  ugraph_wf O ->
  relabel_inv (merged_data O T) (relabel_fun (orth_mapping O)) R ->
  forall z, is_Some (gnode R !! z) -> relabel_fun (orth_mapping O) z = z.
Proof.
  intros HO (_ & HN & _ & _ & _) z Hz. apply HN in Hz as (u & _ & <-).
  by apply relabel_fun_idem.
Qed.

Lemma inv_non_mgi_unmapped (O : UGraph) (T R : MGraph) (n : GeneId) :
  ugraph_wf O ->
  relabel_inv (merged_data O T) (relabel_fun (orth_mapping O)) R ->
  is_Some (gnode R !! n) -> node_namespace n <> "MGI" -> orth_mapping O !! n = None.
Proof.
  intros HO Hinv Hn Hns. pose proof (inv_fixed O T R HO Hinv n Hn) as Hf.
  unfold relabel_fun in Hf. destruct (orth_mapping O !! n) as [c|] eqn:E; [|done].
  subst c. exfalso. apply Hns. by apply (mapping_value_mgi O n n).
Qed.

Lemma relabel_fixed_noop (f : GeneId -> GeneId) (R : MGraph) (L : list GeneId) :
  (forall z, is_Some (gnode R !! z) -> f z = z) -> relabel_nodes f L R = Some R.
Proof.
  intros Hf. unfold relabel_nodes, relabel_inplace.
  induction L as [|old L IH]; [done|]. cbn [fold_left mbind option_bind].
  unfold relabel_step. rewrite map_lookup_imap.
  destruct (gnode R !! old) as [a|] eqn:Ea; cbn [mbind option_bind]; [|exact IH].
  rewrite (Hf old ltac:(by eexists)). rewrite decide_True; done.
Qed.

Lemma filter_relabeled_perm (O : UGraph) (T R : MGraph) (ns : string) :
  ugraph_wf O -> bel_typed T -> ns <> "MGI" ->
  relabel_inv (merged_data O T) (relabel_fun (orth_mapping O)) R ->
  filter (fun nd : GeneId * Attrs =>
            nd.2 !! "type" = Some "Gene" /\ node_namespace nd.1 = ns) (map_to_list (gnode R))
  ≡ₚ filter (fun nd : GeneId * Attrs =>
               (nd.2 !! "type" = Some "Gene" /\ node_namespace nd.1 = ns) /\
               orth_mapping O !! nd.1 = None) (map_to_list (gnode T)).
Proof.
  intros HO HT Hns Hinv.
  apply NoDup_Permutation; [apply NoDup_filter, NoDup_map_to_list..|].
  intros [n d]. rewrite !list_elem_of_filter, !elem_of_map_to_list. simpl. split.
  - intros [[Hty Hn] HR].
    assert (Hu : orth_mapping O !! n = None).
    { apply (inv_non_mgi_unmapped O T R n HO Hinv); [by eexists|congruence]. }
    rewrite (inv_unmapped O T R HO HT Hinv n Hu) in HR. tauto.
  - intros [[[Hty Hn] Hu] HTn]. rewrite (inv_unmapped O T R HO HT Hinv n Hu). tauto.
Qed.

Lemma inv_sizes (O : UGraph) (T R : MGraph) :
  ugraph_wf O -> bel_typed T ->
  relabel_inv (merged_data O T) (relabel_fun (orth_mapping O)) R ->
  size (gnode R) <= size (gnode T) /\ size (gedge R) <= size (gedge T).
Proof.
  intros HO HT (_ & HN & HE & _ & _). split.
  - apply (size_le_of_image _ _ (relabel_fun (orth_mapping O))).
    intros z Hz. apply HN in Hz as (u & Hu & Hgu). exists u.
    split; [by apply (merged_data_dom O T u HO HT)|done].
  - apply (size_le_of_image _ _
             (fun k : EdgeKey => (relabel_fun (orth_mapping O) k.1.1,
                                  relabel_fun (orth_mapping O) k.1.2, k.2))).
    intros [[z w] k] Hk. apply HE in Hk as (u & v & Huv & <- & <-).
    exists (u, v, k). split; [exact Huv|done].
Qed.

Lemma node_data_step_fail (O : UGraph) (T : MGraph) :
  ugraph_wf O -> ~ bel_typed T -> node_data_step (orth_mapping O) O T = None.
Proof.
  intros HO HT. unfold node_data_step. rewrite decide_False; [done|].
  intros Hall. apply HT. intros n d Hd. destruct (Hall n d Hd) as [d' Hu].
  unfold update_node_data in Hu. destruct (d !! "type"); [by eexists|discriminate].
Qed.

(** *** Cell 11 *)

Lemma scan_component_i2c (i : nat) (c : list GeneId) (st : Index) :
  index2component (scan_component i c st) = index2component st.
Proof. revert st. induction c as [|x l IH]; intros st; simpl; [done|]. by rewrite IH. Qed.

Lemma build_index_i2c (k : nat) (comps : list (list GeneId)) (st : Index) (j : nat) :
  (forall j', k <= j' -> index2component st !! j' = None) ->
  index2component (build_index k comps st) !! j =
  if decide (k <= j) then comps !! (j - k) else index2component st !! j.
Proof.
  revert k st. induction comps as [|c cs IH]; intros k st Hst; cbn [build_index].
  - case_decide as Hj; [rewrite Hst; [|done]; by destruct (j - k)|reflexivity].
  - rewrite IH.
    2:{ intros j' Hj'. rewrite scan_component_i2c. cbn [index2component].
        rewrite lookup_insert_ne by lia. apply Hst. lia. }
    rewrite scan_component_i2c. cbn [index2component].
    destruct (decide (S k <= j)), (decide (k <= j)); try lia.
    + replace (j - k) with (S (j - S k)) by lia. done.
    + replace j with k by lia. rewrite lookup_insert, decide_True by done. by rewrite Nat.sub_diag.
    + rewrite lookup_insert_ne by lia. done.
Qed.

Lemma orth_index_i2c (G : UGraph) (j : nat) :
  index2component (orth_index G) !! j = connected_components G !! j.
Proof.
  unfold orth_index. rewrite build_index_i2c; [|intros; apply lookup_empty].
  rewrite decide_True by lia. by rewrite Nat.sub_0_r.
Qed.

Lemma orth_index_i2m (G : UGraph) (j : nat) :
  index2mgi (orth_index G) !! j = connected_components G !! j ≫= last_mgi.
Proof.
  unfold orth_index. rewrite build_index_i2m; [|intros; apply lookup_empty].
  rewrite decide_True by lia. by rewrite Nat.sub_0_r.
Qed.

Lemma orth_index_m2i (G : UGraph) (n : GeneId) (i : nat) :
  ugraph_wf G ->
  member2index (orth_index G) !! n = Some i <->
  exists c, connected_components G !! i = Some c /\ n ∈ c.
Proof.
  intros HG. destruct (connected_components_spec G HG) as (_ & _ & _ & Hdisj). split.
  - unfold orth_index. intros H.
    destruct (build_index_m2i_some 0 _ _ n i H) as [(p & c & Hp & -> & Hn)|He];
      [by exists c|by cbn in He; rewrite lookup_empty in He].
  - intros (c & Hc & Hn). unfold orth_index.
    exact (build_index_m2i_disj 0 _ empty_index n i c Hdisj Hc Hn).
Qed.

(** ** Properties *)


(** Cell 10: the undirected copy of a well-formed orthology multigraph is a
    well-formed graph; two nodes are neighbours in it exactly when an edge of
    any key joins them in either direction; and every value of the mapping
    built from it has a node dictionary in the original graph, so the lookup
    [orthology_undirected.node[mapping[name]]] of cell 17 never fails. *)
Theorem orthology_undirected_wf (T : MGraph) :
  mgraph_wf T ->
  ugraph_wf (to_undirected T) /\
  (forall a b, b ∈ neighbors (to_undirected T) a <->
     exists k, is_Some (gedge T !! (a, b, k)) \/ is_Some (gedge T !! (b, a, k))) /\
  (forall k r, orth_mapping (to_undirected T) !! k = Some r -> is_Some (gnode T !! r)).
Proof.
  intros HW. pose proof (to_undirected_wf T HW) as HU. split; [done|]. split.
  - apply to_undirected_neighbors.
  - intros k r Hk. exact (mapping_value_attr _ k r HU Hk).
Qed.

Lemma orthology_undirected_wf_witness :
  mgraph_wf tp53_orthology_bel /\
  Trp53_MGI ∈ neighbors (to_undirected tp53_orthology_bel) Tp53_RGD.
Proof.
  assert (HW : mgraph_wf tp53_orthology_bel) by decide_by_eval.
  split; [exact HW|].
  apply (proj1 (proj2 (orthology_undirected_wf tp53_orthology_bel HW))).
  exists 0%Z. left. vm_compute. by eexists.
Defined.

(** Cell 11: [index2component[i]] is the [i]-th component of the enumeration,
    and [member2index[n] == i] holds exactly when [n] is a member of
    [index2component[i]]. *)
Theorem index_member_roundtrip (G : UGraph) :
  ugraph_wf G ->
  (forall i, index2component (orth_index G) !! i = connected_components G !! i) /\
  (forall n i, member2index (orth_index G) !! n = Some i <->
     exists c, index2component (orth_index G) !! i = Some c /\ n ∈ c).
Proof.
  intros HG. split; [apply orth_index_i2c|]. intros n i.
  rewrite orth_index_i2c. by apply orth_index_m2i.
Qed.

Lemma index_member_roundtrip_witness :
  ugraph_wf tp53_orthology /\
  member2index (orth_index tp53_orthology) !! Tp53_RGD = Some 0.
Proof.
  split; [decide_by_eval|].
  apply (proj2 (index_member_roundtrip tp53_orthology ltac:(decide_by_eval))).
  exists [TP53_HGNC; Trp53_MGI; Tp53_RGD]. split; [vm_compute; reflexivity|decide_by_eval].
Defined.

(** Cell 11: [i] is a key of [index2mgi] exactly when
    [index2component[i]] has a member of namespace [MGI]. *)
Theorem index2mgi_domain (G : UGraph) (i : nat) :
  is_Some (index2mgi (orth_index G) !! i) <->
  exists c, index2component (orth_index G) !! i = Some c /\
            exists x, x ∈ c /\ node_namespace x = "MGI".
Proof.
  rewrite orth_index_i2m, orth_index_i2c.
  destruct (connected_components G !! i) as [c|]; cbn [mbind option_bind].
  - split.
    + intros [r Hr]. exists c. split; [done|]. exists r. by apply last_mgi_elem.
    + intros (c' & [= <-] & x & Hx & Hns).
      destruct (last_mgi c) as [r|] eqn:E; [by eexists|].
      exfalso. apply last_mgi_None with (x := x) in E; [|done]. apply E. by symmetry.
  - split; [intros [? ?]; discriminate|intros (? & ? & _); discriminate].
Qed.

(** Cell 12: a node is a key of [mapping] exactly when it lies in a connected
    component of the orthology graph that has a member of namespace [MGI]. *)
Theorem mapping_domain (G : UGraph) (n : GeneId) :
  ugraph_wf G ->
  is_Some (orth_mapping G !! n) <->
  exists c, c ∈ connected_components G /\ n ∈ c /\
            exists x, x ∈ c /\ node_namespace x = "MGI".
Proof.
  intros HG. split.
  - intros [r Hr]. apply orth_mapping_Some in Hr as (i & c & Hi & Hn & Hr); [|done].
    exists c. split; [by eapply list_elem_of_lookup_2|]. split; [done|].
    exists r. by apply last_mgi_elem.
  - intros (c & Hc & Hn & x & Hx & Hns). apply list_elem_of_lookup_1 in Hc as [i Hi].
    rewrite (orth_mapping_member G i c n HG Hi Hn).
    destruct (last_mgi c) as [r|] eqn:E; [by eexists|].
    exfalso. apply last_mgi_None with (x := x) in E; [|done]. apply E. by symmetry.
Qed.

Lemma mapping_domain_witness :
  ugraph_wf two_mgi_orthology /\ is_Some (orth_mapping two_mgi_orthology !! TP53_HGNC).
Proof.
  assert (HG : ugraph_wf two_mgi_orthology) by decide_by_eval.
  split; [exact HG|]. apply (mapping_domain two_mgi_orthology TP53_HGNC HG).
  exists [TP53_HGNC; Trp53_MGI; Trp53ps_MGI]. split; [decide_by_eval|].
  split; [decide_by_eval|]. exists Trp53_MGI. split; [decide_by_eval|reflexivity].
Defined.

(** Cell 17: the loop raises exactly when some node of [g] has no ["type"]
    attribute ([data['type']]), and then cells 17 and 18 give no graph. *)
Theorem node_data_type_error (O : UGraph) (T : MGraph) (nodes : list GeneId) :
  ugraph_wf O ->
  (node_data_step (orth_mapping O) O T = None <-> ~ bel_typed T) /\
  (~ bel_typed T -> apply_mapping O T nodes = None).
Proof.
  intros HO. split; [split|].
  - intros HN HT. rewrite (node_data_step_ok O T HO HT) in HN. discriminate.
  - by apply node_data_step_fail.
  - intros HT. unfold apply_mapping. by rewrite (node_data_step_fail O T HO HT).
Qed.

Lemma node_data_type_error_witness :
  ugraph_wf tp53_orthology /\ apply_mapping tp53_orthology corpus_untyped [MDM2_HGNC] = None.
Proof.
  assert (HO : ugraph_wf tp53_orthology) by decide_by_eval.
  split; [exact HO|]. apply (proj2 (node_data_type_error tp53_orthology corpus_untyped [MDM2_HGNC] HO)).
  apply (bool_decide_eq_false_1 _). vm_compute. reflexivity.
Defined.

(** Cell 17: on a typed graph the loop raises no error and keeps the edges and
    the node set; no attribute of a node is removed; a node that is not a key
    of [mapping], or whose type is not Gene, RNA or Protein, keeps its
    dictionary; and a key of allowed type takes every attribute value of the
    orthology node [mapping[name]]. *)
Theorem node_data_frame (O : UGraph) (T : MGraph) :
  ugraph_wf O -> bel_typed T ->
  exists T', node_data_step (orth_mapping O) O T = Some T' /\
    gedge T' = gedge T /\
    (forall n, is_Some (gnode T' !! n) <-> is_Some (gnode T !! n)) /\
    forall n d, gnode T !! n = Some d ->
      exists d', gnode T' !! n = Some d' /\
        (forall x, is_Some (d !! x) -> is_Some (d' !! x)) /\
        (orth_mapping O !! n = None \/
         (exists ty, d !! "type" = Some ty /\ ty ∉ allowed_types) -> d' = d) /\
        (forall ty c oa, d !! "type" = Some ty -> ty ∈ allowed_types ->
           orth_mapping O !! n = Some c -> uattr O !! c = Some oa ->
           forall x v, oa !! x = Some v -> d' !! x = Some v).
Proof.
  intros HO HT. exists (merged_data O T). split; [by apply node_data_step_ok|].
  split; [done|]. split; [intros n; by apply merged_data_dom|].
  intros n d Hd. rewrite merged_data_lookup, Hd. cbn [mbind option_bind].
  destruct (HT n d Hd) as [ty0 Hty0].
  pose proof (node_data_step_ok O T HO HT) as Hs. unfold node_data_step in Hs.
  case_decide as Hall; [|discriminate]. destruct (Hall n d Hd) as [d' Hu].
  exists d'. split; [exact Hu|]. split; [intros x; exact (update_node_data_keeps _ _ _ d d' x Hu)|].
  unfold update_node_data in Hu. rewrite Hty0 in Hu. split.
  - intros [Hn|(ty & Hty & Hna)].
    + rewrite Hn in Hu. case_decide; congruence.
    + rewrite Hty in Hty0. injection Hty0 as <-. rewrite decide_False in Hu by done. congruence.
  - intros ty c oa Hty Ha Hc Hoa x v Hx. rewrite Hty in Hty0. injection Hty0 as <-.
    rewrite decide_True, Hc, Hoa in Hu by done. injection Hu as <-.
    unfold dict_update. by apply lookup_union_Some_l.
Qed.

Lemma node_data_frame_witness :
  ugraph_wf tp53_orthology /\ bel_typed corpus1 /\
  exists T', node_data_step (orth_mapping tp53_orthology) tp53_orthology corpus1 = Some T' /\
             gnode T' !! MDM2_HGNC = Some (type_attrs "Protein").
Proof.
  assert (HO : ugraph_wf tp53_orthology) by decide_by_eval.
  assert (HT : bel_typed corpus1) by decide_by_eval.
  split; [exact HO|]. split; [exact HT|].
  destruct (node_data_frame tp53_orthology corpus1 HO HT) as (T' & Hs & _ & _ & Hn).
  destruct (Hn MDM2_HGNC (type_attrs "Protein") ltac:(reflexivity)) as (d' & Hd' & _ & Hsame & _).
  exists T'. split; [exact Hs|]. rewrite Hd'. f_equal. apply Hsame. left. reflexivity.
Defined.

(** Cell 18: relabeling [g_relabeled] again with the same function, in any
    processing order, raises no error and changes nothing. *)
Theorem relabel_rerun_noop (O : UGraph) (T : MGraph) (nodes : list GeneId) :
  ugraph_wf O -> mgraph_wf T -> bel_typed T -> NoDup nodes ->
  (forall u, is_Some (gnode T !! u) -> u ∈ nodes) ->
  exists R, apply_mapping O T nodes = Some R /\
    forall nodes', relabel_nodes (relabel_fun (orth_mapping O)) nodes' R = Some R.
Proof.
  intros HO HW HT Hnd Hcov.
  destruct (apply_mapping_inv O T nodes HO HW HT Hnd Hcov) as (R & HR & Hinv).
  exists R. split; [done|]. intros nodes'. apply relabel_fixed_noop.
  exact (inv_fixed O T R HO Hinv).
Qed.

Lemma relabel_rerun_noop_witness :
  exists R, apply_mapping tp53_orthology corpus3 [TP53_HGNC; Tp53_RGD; MDM2_HGNC] = Some R /\
    relabel_nodes (relabel_fun (orth_mapping tp53_orthology)) [Trp53_MGI; MDM2_HGNC; TP53_HGNC] R
    = Some R.
Proof.
  destruct (relabel_rerun_noop tp53_orthology corpus3 [TP53_HGNC; Tp53_RGD; MDM2_HGNC]
              ltac:(decide_by_eval) ltac:(decide_by_eval) ltac:(decide_by_eval)
              ltac:(decide_by_eval) ltac:(apply cover_of_map_Forall; decide_by_eval))
    as (R & HR & Hre).
  exists R. split; [exact HR|apply Hre].
Defined.

(** Cells 17 and 18: the relabeled graph has at most as many nodes and at most
    as many edges as [g]. *)
Theorem relabel_sizes_shrink (O : UGraph) (T : MGraph) (nodes : list GeneId) :
  ugraph_wf O -> mgraph_wf T -> bel_typed T -> NoDup nodes ->
  (forall u, is_Some (gnode T !! u) -> u ∈ nodes) ->
  exists R, apply_mapping O T nodes = Some R /\
    size (gnode R) <= size (gnode T) /\ size (gedge R) <= size (gedge T).
Proof.
  intros HO HW HT Hnd Hcov.
  destruct (apply_mapping_inv O T nodes HO HW HT Hnd Hcov) as (R & HR & Hinv).
  exists R. split; [done|]. exact (inv_sizes O T R HO HT Hinv).
Qed.

Lemma relabel_sizes_shrink_witness :
  exists R, apply_mapping tp53_orthology corpus3 [TP53_HGNC; Tp53_RGD; MDM2_HGNC] = Some R /\
    size (gnode R) <= 3 /\ size (gedge R) <= 2.
Proof.
  destruct (relabel_sizes_shrink tp53_orthology corpus3 [TP53_HGNC; Tp53_RGD; MDM2_HGNC]
              ltac:(decide_by_eval) ltac:(decide_by_eval) ltac:(decide_by_eval)
              ltac:(decide_by_eval) ltac:(apply cover_of_map_Forall; decide_by_eval))
    as (R & HR & Hn & He).
  exists R. split; [exact HR|]. split; [exact Hn|exact He].
Defined.

(** Cells 15 and 19: on a typed graph the [Counter] is built without error;
    its count for a namespace is the number of nodes of type ["Gene"] in that
    namespace, and it holds no zero count. *)
Theorem gene_counter_counts (G : MGraph) :
  bel_typed G ->
  exists cnt, gene_namespace_counter G = Some cnt /\
    forall ns, default 0 (cnt !! ns) = gene_count G ns /\ cnt !! ns <> Some 0.
Proof. apply gene_counter_spec. Qed.

Lemma gene_counter_counts_witness :
  bel_typed corpus3 /\
  exists cnt, gene_namespace_counter corpus3 = Some cnt /\
              default 0 (cnt !! "HGNC") = gene_count corpus3 "HGNC".
Proof.
  assert (HT : bel_typed corpus3) by decide_by_eval.
  split; [exact HT|]. destruct (gene_counter_counts corpus3 HT) as (cnt & Hc & Hn).
  exists cnt. split; [exact Hc|]. apply Hn.
Defined.

(** Cells 15 and 19: the [Counter] comprehension raises (a [KeyError]) exactly
    when some node of the graph has no ["type"] attribute. *)
Theorem gene_counter_untyped_none (G : MGraph) :
  gene_namespace_counter G = None <-> ~ bel_typed G.
Proof.
  split.
  - intros HN HT. destruct (gene_counter_spec G HT) as (cnt & Hs & _). congruence.
  - intros HT. apply count_gene_fold_fail. by rewrite <- bel_typed_list.
Qed.

(** Cells 15 to 19: for a namespace other than [MGI], [after_counter] counts
    the genes of that namespace in [g] that are not keys of [mapping], so it is
    never larger than [before_counter]. *)
Theorem gene_counts_non_mgi (O : UGraph) (T : MGraph) (nodes : list GeneId) :
  ugraph_wf O -> mgraph_wf T -> bel_typed T -> NoDup nodes ->
  (forall u, is_Some (gnode T !! u) -> u ∈ nodes) ->
  exists R before after,
    apply_mapping O T nodes = Some R /\
    gene_namespace_counter T = Some before /\ gene_namespace_counter R = Some after /\
    forall ns, ns <> "MGI" ->
      default 0 (after !! ns) =
        length (filter (fun nd : GeneId * Attrs =>
                          (nd.2 !! "type" = Some "Gene" /\ node_namespace nd.1 = ns) /\
                          orth_mapping O !! nd.1 = None) (map_to_list (gnode T))) /\
      default 0 (after !! ns) <= default 0 (before !! ns).
Proof.
  intros HO HW HT Hnd Hcov.
  destruct (apply_mapping_inv O T nodes HO HW HT Hnd Hcov) as (R & HR & Hinv).
  destruct (gene_counter_spec T HT) as (before & Hb & Hbc).
  destruct (gene_counter_spec R (inv_typed O T R HT Hinv)) as (after & Ha & Hac).
  exists R, before, after. split; [done|]. split; [done|]. split; [done|].
  intros ns Hns. rewrite (proj1 (Hac ns)), (proj1 (Hbc ns)). unfold gene_count.
  rewrite (Permutation_length (filter_relabeled_perm O T R ns HO HT Hns Hinv)).
  split; [done|]. apply length_filter_and.
Qed.

Lemma gene_counts_non_mgi_witness :
  exists R before after,
    apply_mapping tp53_orthology corpus3 [TP53_HGNC; Tp53_RGD; MDM2_HGNC] = Some R /\
    gene_namespace_counter corpus3 = Some before /\ gene_namespace_counter R = Some after /\
    default 0 (after !! "HGNC") = 0.
Proof.
  destruct (gene_counts_non_mgi tp53_orthology corpus3 [TP53_HGNC; Tp53_RGD; MDM2_HGNC]
              ltac:(decide_by_eval) ltac:(decide_by_eval) ltac:(decide_by_eval)
              ltac:(decide_by_eval) ltac:(apply cover_of_map_Forall; decide_by_eval))
    as (R & before & after & HR & Hb & Ha & Hc).
  exists R, before, after. split; [exact HR|]. split; [exact Hb|]. split; [exact Ha|].
  rewrite (proj1 (Hc "HGNC" ltac:(discriminate))). vm_compute. reflexivity.
Defined.
